(** * gwargs: binding command-line arguments to a struct

    A shallow embedding of [gwargs.go] (package [gwargs]): the tokenizer
    [mapArgSlice], the binder [Parse] and the three range checks
    [checkIntOverflow], [checkUIntOverflow] and [checkFloatOverflow],
    together with the parts of Go's [strings], [strconv], [unicode/utf8] and
    [reflect] packages that these functions call. *)

From Stdlib Require Import ZArith Ascii String List Bool Lia.
From Stdlib Require Import Floats.SpecFloat.
From stdpp Require Import base option list gmap strings.

Local Open Scope string_scope.
Local Open Scope list_scope.
Local Open Scope Z_scope.

(** ** Go's [strings] package, as far as gwargs uses it

    A Go string is a sequence of bytes; so is a [string] here. *)

(** [strings.HasPrefix(s, prefix)]. *)
Fixpoint HasPrefix (s prefix : string) {struct prefix} : bool :=
  match prefix, s with
  | EmptyString, _ => true
  | String p prefix', String c s' => Ascii.eqb c p && HasPrefix s' prefix'
  | String _ _, EmptyString => false
  end.

(** [s[n:]] for [n <= len(s)]. *)
Fixpoint sliceFrom (n : nat) (s : string) : string :=
  match n, s with
  | O, _ => s
  | S n', String _ s' => sliceFrom n' s'
  | S _, EmptyString => EmptyString
  end.

(** [s[:n]] for [n <= len(s)]. *)
Fixpoint sliceTo (n : nat) (s : string) : string :=
  match n, s with
  | O, _ => EmptyString
  | S n', String c s' => String c (sliceTo n' s')
  | S _, EmptyString => EmptyString
  end.

(** [strings.TrimPrefix(s, prefix)]. *)
Definition TrimPrefix (s prefix : string) : string :=
  if HasPrefix s prefix then sliceFrom (String.length prefix) s else s.

(** [strings.Contains(s, substr)]. *)
Fixpoint Contains (s substr : string) : bool :=
  HasPrefix s substr ||
  match s with
  | EmptyString => false
  | String _ s' => Contains s' substr
  end.

(** The text before and after the first occurrence of [sep] in [s]. *)
Fixpoint cut (s sep : string) : option (string * string) :=
  if HasPrefix s sep then Some (EmptyString, sliceFrom (String.length sep) s)
  else match s with
       | EmptyString => None
       | String c s' =>
           match cut s' sep with
           | Some (before, after) => Some (String c before, after)
           | None => None
           end
       end.

(** [strings.SplitN(s, sep, 2)] for a separator that is not empty: the
    whole of [s] when [sep] does not occur, else the two parts around its
    first occurrence. *)
Definition SplitN2 (s sep : string) : list string :=
  match cut s sep with
  | Some (before, after) => [before; after]
  | None => [s]
  end.

(** ASCII lower-casing of one byte. *)
Definition lowerByte (c : ascii) : ascii :=
  let n := N_of_ascii c in
  if ((65 <=? n) && (n <=? 90))%N then ascii_of_N (n + 32) else c.

Fixpoint lowerASCII (s : string) : string :=
  match s with
  | EmptyString => EmptyString
  | String c s' => String (lowerByte c) (lowerASCII s')
  end.

(** [strings.EqualFold(s, "true")]. Unicode simple folding relates no
    character outside ASCII to [t], [r], [u] or [e], so the folds of
    ["true"] are its sixteen ASCII spellings. *)
Definition EqualFold_true (s : string) : bool := String.eqb (lowerASCII s) "true".

(** ** [unicode/utf8] and [strings.Split(s, "")] *)

Definition byteAt (s : string) (i : nat) : option N :=
  match String.get i s with
  | Some c => Some (N_of_ascii c)
  | None => None
  end.

Definition inRange (lo hi : N) (b : option N) : bool :=
  match b with
  | Some x => ((lo <=? x) && (x <=? hi))%N
  | None => false
  end.

(** The size of the encoding and the range accepted for the second byte,
    by first byte (the table [first] with [acceptRanges] of utf8.go);
    [None] for ASCII and for a byte that starts no encoding. *)
Definition utf8First (b : N) : option (nat * (N * N)) :=
  if (b <? 194)%N then None
  else if (b <=? 223)%N then Some (2%nat, (128, 191)%N)
  else if (b =? 224)%N then Some (3%nat, (160, 191)%N)
  else if (b <=? 236)%N then Some (3%nat, (128, 191)%N)
  else if (b =? 237)%N then Some (3%nat, (128, 159)%N)
  else if (b <=? 239)%N then Some (3%nat, (128, 191)%N)
  else if (b =? 240)%N then Some (4%nat, (144, 191)%N)
  else if (b <=? 243)%N then Some (4%nat, (128, 191)%N)
  else if (b =? 244)%N then Some (4%nat, (128, 143)%N)
  else None.

(** The size returned by [utf8.DecodeRuneInString(s)] for [s] not empty:
    the length of the encoding at the front of [s], or 1 when there is no
    valid encoding there. *)
Definition runeSize (s : string) : nat :=
  match byteAt s 0 with
  | None => 1%nat
  | Some b0 =>
      match utf8First b0 with
      | None => 1%nat
      | Some (sz, (lo, hi)) =>
          if (String.length s <? sz)%nat then 1%nat
          else if negb (inRange lo hi (byteAt s 1)) then 1%nat
          else if (sz <=? 2)%nat then 2%nat
          else if negb (inRange 128 191 (byteAt s 2)) then 1%nat
          else if (sz <=? 3)%nat then 3%nat
          else if negb (inRange 128 191 (byteAt s 3)) then 1%nat
          else 4%nat
      end
  end.

(** [strings.Split(s, "")]: [s] cut after each UTF-8 sequence, a byte that
    starts no valid sequence standing alone. Every step removes at least
    one byte, so [len(s)] steps exhaust [s]. *)
Fixpoint explode (fuel : nat) (s : string) : list string :=
  match fuel with
  | O => []
  | S fuel' =>
      match s with
      | EmptyString => []
      | _ => sliceTo (runeSize s) s :: explode fuel' (sliceFrom (runeSize s) s)
      end
  end.

Definition SplitChars (s : string) : list string := explode (String.length s) s.

(** ** [strconv.ParseUint] and [strconv.ParseInt] at base 10, bit size 64 *)

(** The [Err] of a [*strconv.NumError]. *)
Inductive NumError : Set := ErrSyntax | ErrRange.

Definition MaxUint64 : Z := 18446744073709551615.
Definition MaxInt64 : Z := 9223372036854775807.
Definition MinInt64 : Z := -9223372036854775808.

(** Conversion to [uint64] and to a signed integer of [bits] bits. *)
Definition wrapU64 (n : Z) : Z := n mod 2 ^ 64.

Definition wrapSigned (bits n : Z) : Z :=
  (n + 2 ^ (bits - 1)) mod 2 ^ bits - 2 ^ (bits - 1).

Definition wrapUnsigned (bits n : Z) : Z := n mod 2 ^ bits.

(** [lower(c)] of strconv: [c | ('x' - 'X')]. *)
Definition lower (c : ascii) : ascii := ascii_of_N (N.lor (N_of_ascii c) 32).

(** The value of a digit or letter as [ParseUint] reads it; [None] for any
    other byte (an underscore too: the base is not 0). *)
Definition digitVal (c : ascii) : option Z :=
  let n := Z.of_N (N_of_ascii c) in
  if (48 <=? n) && (n <=? 57) then Some (n - 48)
  else
    let l := Z.of_N (N_of_ascii (lower c)) in
    if (97 <=? l) && (l <=? 122) then Some (l - 97 + 10) else None.

(** The digit loop of [ParseUint], [n] the value read so far. *)
Fixpoint parseDigits (s : string) (n : Z) : Z + NumError :=
  match s with
  | EmptyString => inl n
  | String c s' =>
      match digitVal c with
      | None => inr ErrSyntax
      | Some d =>
          if 10 <=? d then inr ErrSyntax
          else if (MaxUint64 / 10 + 1) <=? n then inr ErrRange
          else
            let n10 := wrapU64 (n * 10) in
            let n1 := wrapU64 (n10 + d) in
            if (n1 <? n10) || (MaxUint64 <? n1) then inr ErrRange
            else parseDigits s' n1
      end
  end.

Definition ParseUint (s : string) : Z + NumError :=
  match s with
  | EmptyString => inr ErrSyntax
  | _ => parseDigits s 0
  end.

Definition ParseInt (s : string) : Z + NumError :=
  match s with
  | EmptyString => inr ErrSyntax
  | String c rest =>
      let neg := Ascii.eqb c "-" in
      let body := if Ascii.eqb c "+" || neg then rest else s in
      match ParseUint body with
      | inr e => inr e
      | inl un =>
          let cutoff := 2 ^ 63 in
          if negb neg && (cutoff <=? un) then inr ErrRange
          else if neg && (cutoff <? un) then inr ErrRange
          else
            let n := wrapSigned 64 un in
            inl (if neg then wrapSigned 64 (- n) else n)
      end
  end.

(** ** [reflect]: kinds, fields and the destination *)

Module reflect.
(** [reflect.Kind], in the order of its constants. *)
Inductive Kind : Set :=
| Invalid | Bool
| Int | Int8 | Int16 | Int32 | Int64
| Uint | Uint8 | Uint16 | Uint32 | Uint64 | Uintptr
| Float32 | Float64 | Complex64 | Complex128
| Array | Chan | Func | Interface | Map | Pointer | Slice
| String | Struct | UnsafePointer.
End reflect.

(** A [float64]: IEEE 754 binary64 (precision 53, [emax] 1024). *)
Definition float64 : Set := spec_float.

(** What a field holds. A field of a kind that [Parse] does not bind
    (a slice, a nested struct, ...) holds an [OpaqueValue]. *)
Inductive Value : Set :=
| BoolValue (b : bool)
| IntValue (n : Z)
| UintValue (n : Z)
| FloatValue (x : float64)
| StringValue (s : string)
| OpaqueValue.

(** A field of the destination: its [reflect.StructField] ([Name], and
    [PkgPath], which is empty exactly for an exported field), the kind of
    its type, and the value it holds. *)
Record Field : Set := mkField {
  Name : string;
  PkgPath : string;
  Kind : reflect.Kind;
  Val : Value
}.

Definition withVal (f : Field) (v : Value) : Field :=
  {| Name := Name f; PkgPath := PkgPath f; Kind := Kind f; Val := v |}.

(** [StructField.IsExported]. *)
Definition IsExported (f : Field) : bool := String.eqb (PkgPath f) "".

(** What a pointer points to. [NonStruct k] is a value of a kind [k] other
    than [Struct]. *)
Inductive Pointee : Set :=
| StructOf (fields : list Field)
| NonStruct (k : reflect.Kind).

(** The argument [s any] of [Parse]. [NonPointer k] is a value of a kind
    [k] other than [Pointer] ([Invalid] for the nil interface);
    [PointerTo None] is a nil pointer. *)
Inductive Any : Set :=
| NonPointer (k : reflect.Kind)
| PointerTo (target : option Pointee).

(** [Config], reserved for future use. *)
Inductive Config : Set := mkConfig.

(** ** Errors and panics *)

Inductive Error : Set :=
| ExpectedPointer (k : reflect.Kind)       (* expected pointer, received k *)
| NilDestination                           (* s cannot be nil *)
| NotAStruct                               (* s must be a pointer to a struct *)
| StrconvError (fn : string) (e : NumError)  (* the error of strconv.fn *)
| Overflow (n : Z) (k : reflect.Kind)      (* overflow detected, cannot fit n into k *)
| OverflowFloat (x : float64) (k : reflect.Kind)
| Underflow (raw : string) (k : reflect.Kind)  (* underflow detected, cannot fit raw into k *)
| Unsupported (k : reflect.Kind) (name : string).  (* unsupported type k in field name *)

Inductive Panic : Set :=
| IndexOutOfRange (index length : nat)     (* index out of range [index] with length *)
| SliceOutOfRange (low length : nat)       (* slice bounds out of range [low:length] *)
| UnexportedField (setter : string).       (* reflect.Value.setter using value obtained
                                              using unexported field *)

(** How a call ends: it returns ([None] for a nil error) or it panics. *)
Inductive Outcome : Set :=
| Returned (err : option Error)
| Panicked (p : Panic).

(** ** The range checks *)

Definition MaxInt8 : Z := 127.
Definition MinInt8 : Z := -128.
Definition MaxInt16 : Z := 32767.
Definition MinInt16 : Z := -32768.
Definition MaxInt32 : Z := 2147483647.
Definition MinInt32 : Z := -2147483648.
Definition MaxUint8 : Z := 255.
Definition MaxUint16 : Z := 65535.
Definition MaxUint32 : Z := 4294967295.

(** [m * 2^e] as a [float64]. *)
Definition f64 (m e : Z) : float64 := binary_normalize 53 1024 m e false.

Definition MaxFloat32 : float64 := f64 (2 ^ 24 - 1) 104.
Definition SmallestNonzeroFloat32 : float64 := f64 1 (-149).
Definition MaxFloat64 : float64 := f64 (2 ^ 53 - 1) 971.
Definition SmallestNonzeroFloat64 : float64 := f64 1 (-1074).

(** Go's [x < y] and [x > y] on [float64] (false when either is a NaN). *)
Definition flt (x y : float64) : bool := SFltb x y.
Definition fgt (x y : float64) : bool := SFltb y x.

(** Reports whether an unknown int will overflow. *)
Definition checkIntOverflow (n : Z) (t : reflect.Kind) : bool :=
  match t with
  | reflect.Int8 => negb ((n >? MaxInt8) || (n <? MinInt8))
  | reflect.Int16 => negb ((n >? MaxInt16) || (n <? MinInt16))
  | reflect.Int32 => negb ((n >? MaxInt32) || (n <? MinInt32))
  | reflect.Int | reflect.Int64 => negb ((n >? MaxInt64) || (n <? MinInt64))
  | _ => false
  end.

(** Reports whether an unsigned integer will overflow. *)
Definition checkUIntOverflow (n : Z) (k : reflect.Kind) : bool :=
  match k with
  | reflect.Uint8 => negb ((n >? MaxUint8) || (n <? 0))
  | reflect.Uint16 => negb ((n >? MaxUint16) || (n <? 0))
  | reflect.Uint32 => negb ((n >? MaxUint32) || (n <? 0))
  | reflect.Uint | reflect.Uint64 => negb ((n >? MaxUint64) || (n <? 0))
  | _ => false
  end.

(** Reports whether an unknown float will overflow. *)
Definition checkFloatOverflow (n : float64) (k : reflect.Kind) : bool :=
  match k with
  | reflect.Float32 => negb (fgt n MaxFloat32 || flt n SmallestNonzeroFloat32)
  | reflect.Float64 => negb (fgt n MaxFloat64 || flt n SmallestNonzeroFloat64)
  | _ => false
  end.

(** ** The tokenizer *)

(** The loop of [mapArgSlice] from index [i] on, [res] the map built so
    far. An index expression out of range panics. Every iteration advances
    [i], so [len(args) - i] iterations end the loop; [fuel] bounds them. *)
Fixpoint mapArgLoop (fuel : nat) (args : list string) (i : nat)
    (res : gmap string string) : gmap string string + Panic :=
  match fuel with
  | O => inl res
  | S fuel' =>
      match args !! i with
      | None => inl res
      | Some arg =>
          (* Named args separated by " " or "=" *)
          if HasPrefix arg "--" then
            let arg := TrimPrefix arg "--" in
            if Contains arg "=" then
              let parts := SplitN2 arg "=" in
              match parts !! 0%nat, parts !! 1%nat with
              | Some key, Some value =>
                  mapArgLoop fuel' args (S i) (<[key := value]> res)
              | None, _ => inr (IndexOutOfRange 0 (length parts))
              | _, None => inr (IndexOutOfRange 1 (length parts))
              end
            else
              match args !! (i + 1)%nat with
              | None => inr (IndexOutOfRange (i + 1) (length args))
              | Some next =>
                  if HasPrefix next "-" then
                    mapArgLoop fuel' args (S i) (<[arg := ""]> res)
                  else
                    mapArgLoop fuel' args (S (S i)) (<[arg := next]> res)
              end
          (* Single character flags *)
          else if HasPrefix arg "-" then
            mapArgLoop fuel' args (S i)
              (foldl (fun r flag => <[flag := ""]> r) res (SplitChars (sliceFrom 1 arg)))
          (* Junk *)
          else mapArgLoop fuel' args (S i) (<[arg := ""]> res)
      end
  end.

(** Parses a unix-style slice of arguments into a map. *)
Definition mapArgSlice (args : list string) : gmap string string + Panic :=
  mapArgLoop (length args) args 0 ∅.

(** ** The binder *)

(** The size in bits of the integer kinds. [int] and [uint] are taken at
    64 bits, as on a 64-bit target ([strconv.IntSize]); on a 32-bit target
    they have 32 bits, and [SetInt] and [SetUint] store [int(x)] and
    [uint(x)] after the checks have let every 64-bit value through. What
    is stated of the value that a field of kind [int] or [uint] holds is
    therefore stated for a 64-bit target; the kinds of a width of their
    own ([int8] to [int64], [uint8] to [uint64]) are the same on every
    target. *)
Definition bitSize (k : reflect.Kind) : Z :=
  match k with
  | reflect.Int8 | reflect.Uint8 => 8
  | reflect.Int16 | reflect.Uint16 => 16
  | reflect.Int32 | reflect.Uint32 | reflect.Float32 => 32
  | _ => 64
  end.

(** Conversion [float32(x)]: rounding to binary32 (precision 24, [emax] 128). *)
Definition toFloat32 (x : float64) : spec_float :=
  match x with
  | S754_finite s m e => binary_round 24 128 s m e
  | _ => x
  end.

(** One pass through the loop body of [Parse]: the field as assigned, or
    the outcome that ends the call with the field as it was. *)
Inductive Step : Set :=
| Next (f : Field)
| Stop (o : Outcome).

(** The setters of [reflect.Value]; each panics on a value obtained
    through an unexported field. *)
Definition set (setter : string) (f : Field) (v : Value) : Step :=
  if IsExported f then Next (withVal f v)
  else Stop (Panicked (UnexportedField setter)).

Definition SetString (f : Field) (x : string) : Step :=
  set "SetString" f (StringValue x).

Definition SetBool (f : Field) (x : bool) : Step :=
  set "SetBool" f (BoolValue x).

Definition SetInt (f : Field) (x : Z) : Step :=
  set "SetInt" f (IntValue (wrapSigned (bitSize (Kind f)) x)).

Definition SetUint (f : Field) (x : Z) : Step :=
  set "SetUint" f (UintValue (wrapUnsigned (bitSize (Kind f)) x)).

Definition SetFloat (f : Field) (x : float64) : Step :=
  set "SetFloat" f
    (FloatValue (match Kind f with reflect.Float32 => toFloat32 x | _ => x end)).

Definition fail (e : Error) : Step := Stop (Returned (Some e)).

(** [args[name]]: the empty string for a key that is absent. *)
Definition lookupArg (args : gmap string string) (name : string) : string :=
  default "" (args !! name).

Section Binder.

(** [strconv.ParseFloat(s, 64)], which gwargs calls and does not define. *)
Variable ParseFloat : string -> float64 + NumError.

(** The body of the loop of [Parse] for one field. *)
Definition bindField (args : gmap string string) (field : Field) : Step :=
  let val := field in
  match Kind val with
  | reflect.String => SetString val (lookupArg args (Name field))
  | reflect.Bool =>
      match args !! Name field with
      | Some value => SetBool val (EqualFold_true value)
      | None => Next val
      end
  | reflect.Int | reflect.Int8 | reflect.Int16 | reflect.Int32 | reflect.Int64 =>
      match ParseInt (lookupArg args (Name field)) with
      | inr err => fail (StrconvError "ParseInt" err)
      | inl n =>
          if negb (checkIntOverflow n (Kind val)) then fail (Overflow n (Kind val))
          else SetInt val n
      end
  | reflect.Uint | reflect.Uint8 | reflect.Uint16 | reflect.Uint32 | reflect.Uint64 =>
      if Contains (lookupArg args (Name field)) "-" then
        fail (Underflow (lookupArg args (Name field)) (Kind val))
      else
        match ParseUint (lookupArg args (Name field)) with
        | inr err => fail (StrconvError "ParseUint" err)
        | inl n =>
            if negb (checkUIntOverflow n (Kind val)) then fail (Overflow n (Kind val))
            else SetUint val n
        end
  | reflect.Float32 | reflect.Float64 =>
      match ParseFloat (lookupArg args (Name field)) with
      | inr err => fail (StrconvError "ParseFloat" err)
      | inl n =>
          if negb (checkFloatOverflow n (Kind val)) then fail (OverflowFloat n (Kind val))
          else SetFloat val n
      end
  | k => fail (Unsupported k (Name field))
  end.

(** The loop of [Parse] over the fields in order: the fields as they are
    when the call ends, and how it ends. *)
Fixpoint bindFields (args : gmap string string) (fields : list Field)
    : list Field * Outcome :=
  match fields with
  | [] => ([], Returned None)
  | field :: rest =>
      match bindField args field with
      | Next field' =>
          let '(rest', o) := bindFields args rest in (field' :: rest', o)
      | Stop o => (field :: rest, o)
      end
  end.

(** [Parse(s, config)] in a process whose [os.Args] is [osArgs]: the
    destination when the call ends, and how it ends. *)
Definition Parse (s : Any) (config : option Config) (osArgs : list string)
    : Any * Outcome :=
  match s with
  | NonPointer k => (s, Returned (Some (ExpectedPointer k)))
  | PointerTo None => (s, Returned (Some NilDestination))
  | PointerTo (Some (NonStruct _)) => (s, Returned (Some NotAStruct))
  | PointerTo (Some (StructOf fields)) =>
      match osArgs with
      | [] => (s, Panicked (SliceOutOfRange 1 0))
      | _ :: rest =>
          match mapArgSlice rest with
          | inr p => (s, Panicked p)
          | inl args =>
              let '(fields', o) := bindFields args fields in
              (PointerTo (Some (StructOf fields')), o)
          end
      end
  end.

End Binder.

Arguments Parse ParseFloat s config osArgs : simpl never.

(** The destinations [Parse] binds: non-nil pointers to a struct. *)
Definition isStructPointer (s : Any) : bool :=
  match s with
  | PointerTo (Some (StructOf _)) => true
  | _ => false
  end.

(** The three errors that reject the destination. *)
Definition invalidDestination (e : Error) : bool :=
  match e with
  | ExpectedPointer _ | NilDestination | NotAStruct => true
  | _ => false
  end.

(** An exported field [name] of kind [k] holding [v]. *)
Definition exportedField (name : string) (k : reflect.Kind) (v : Value) : Field :=
  {| Name := name; PkgPath := ""; Kind := k; Val := v |}.

(** A field [name] of kind [k] holding [v] that package [main] does not export. *)
Definition unexportedField (name : string) (k : reflect.Kind) (v : Value) : Field :=
  {| Name := name; PkgPath := "main"; Kind := k; Val := v |}.

Definition structPointer (fields : list Field) : Any :=
  PointerTo (Some (StructOf fields)).

(** A [ParseFloat] that accepts nothing, for examples without float fields. *)
Definition rejectFloats : string -> float64 + NumError := fun _ => inr ErrSyntax.

(** ** Decimal literals and decimal output

    What "a base-10 integer literal" means, stated apart from the loop of
    [ParseUint], and the decimal output of [strconv.FormatInt] and
    [strconv.FormatUint], which writes a field back as text. *)

Definition isDigit (c : ascii) : bool :=
  let n := Z.of_N (N_of_ascii c) in (48 <=? n) && (n <=? 57).

(** The number that the digits [s] denote after digits worth [acc];
    [None] when [s] holds anything but digits. *)
Fixpoint decimalValue (s : string) (acc : Z) : option Z :=
  match s with
  | EmptyString => Some acc
  | String c s' =>
      if isDigit c then decimalValue s' (acc * 10 + (Z.of_N (N_of_ascii c) - 48))
      else None
  end.

(** One or more digits. *)
Definition naturalLiteral (s : string) : option Z :=
  match s with
  | EmptyString => None
  | _ => decimalValue s 0
  end.

(** An optional sign, then one or more digits. *)
Definition integerLiteral (s : string) : option Z :=
  match s with
  | EmptyString => None
  | String c rest =>
      if Ascii.eqb c "-" then Z.opp <$> naturalLiteral rest
      else if Ascii.eqb c "+" then naturalLiteral rest
      else naturalLiteral s
  end.

Definition digitChar (d : Z) : ascii := ascii_of_N (Z.to_N (48 + d)).

(** The digits of [n], least significant first, written in front of [acc];
    [fuel] bounds their number. *)
Fixpoint formatDigits (fuel : nat) (n : Z) (acc : string) : string :=
  match fuel with
  | O => acc
  | S fuel' =>
      let acc' := String (digitChar (n mod 10)) acc in
      if n <? 10 then acc' else formatDigits fuel' (n / 10) acc'
  end.

(** [strconv.FormatUint(n, 10)]; a [uint64] has at most 20 digits. *)
Definition FormatUint (n : Z) : string := formatDigits 20 n "".

(** [strconv.FormatInt(n, 10)]. *)
Definition FormatInt (n : Z) : string :=
  if n <? 0 then String "-" (FormatUint (- n)) else FormatUint n.

(** ** The ranges of the integer kinds, as the specification names them *)

Definition signedKind (k : reflect.Kind) : bool :=
  match k with
  | reflect.Int | reflect.Int8 | reflect.Int16 | reflect.Int32 | reflect.Int64 => true
  | _ => false
  end.

Definition unsignedKind (k : reflect.Kind) : bool :=
  match k with
  | reflect.Uint | reflect.Uint8 | reflect.Uint16 | reflect.Uint32 | reflect.Uint64 => true
  | _ => false
  end.

Definition floatKind (k : reflect.Kind) : bool :=
  match k with
  | reflect.Float32 | reflect.Float64 => true
  | _ => false
  end.


(** Two's complement: [min(w) = -2^(w-1)], [max(w) = 2^(w-1) - 1], and
    [2^w - 1] for the unsigned kinds. *)
Definition minInt (k : reflect.Kind) : Z := - 2 ^ (bitSize k - 1).
Definition maxInt (k : reflect.Kind) : Z := 2 ^ (bitSize k - 1) - 1.
Definition maxUint (k : reflect.Kind) : Z := 2 ^ bitSize k - 1.

Definition inRangeZ (lo hi n : Z) : bool := (lo <=? n) && (n <=? hi).

(** ** Writing a record back as arguments

    gwargs has no encoder. This one follows the words of the round-trip
    property: each field as one [--name=value] token, the value as [fmt]
    prints it with [%v]. *)

Definition formatValue (v : Value) : string :=
  match v with
  | StringValue s => s
  | BoolValue b => if b then "true" else "false"
  | IntValue n => FormatInt n
  | UintValue n => FormatUint n
  | FloatValue _ | OpaqueValue => ""
  end.

Definition serializeField (f : Field) : string :=
  "--" +:+ Name f +:+ "=" +:+ formatValue (Val f).

Definition serialize (fields : list Field) : list string :=
  serializeField <$> fields.

(** The kinds of the round trip: string, bool and the integers. *)
Definition roundTripKind (k : reflect.Kind) : bool :=
  match k with
  | reflect.String | reflect.Bool => true
  | _ => signedKind k || unsignedKind k
  end.

(** A field holds a value of its type: Go's typing of the destination. *)
Definition wellTyped (f : Field) : bool :=
  match Val f with
  | StringValue _ => match Kind f with reflect.String => true | _ => false end
  | BoolValue _ => match Kind f with reflect.Bool => true | _ => false end
  | IntValue n => signedKind (Kind f) && inRangeZ (minInt (Kind f)) (maxInt (Kind f)) n
  | UintValue n => unsignedKind (Kind f) && inRangeZ 0 (maxUint (Kind f)) n
  | FloatValue _ => floatKind (Kind f)
  | OpaqueValue => negb (roundTripKind (Kind f) || floatKind (Kind f))
  end.

(** The map that [mapArgSlice] builds from [serialize fields]. *)
Definition serializedMap (res : gmap string string) (fields : list Field)
    : gmap string string :=
  foldl (fun m f => <[Name f := formatValue (Val f)]> m) res fields.

(** ** A destination for the examples

    [Name string; Verbose bool; Level int8; Port uint16], all exported. *)

Definition serverFields (name : string) (verbose : bool) (level port : Z)
    : list Field :=
  [ exportedField "Name" reflect.String (StringValue name);
    exportedField "Verbose" reflect.Bool (BoolValue verbose);
    exportedField "Level" reflect.Int8 (IntValue level);
    exportedField "Port" reflect.Uint16 (UintValue port) ].

Definition serverArgs : list string :=
  ["prog"; "--Name=a=b"; "--Verbose=TRUE"; "--Level=-12"; "--Port"; "8080"].

(** [Host string; Port int8; User string] with the arguments
    [--Host=db --Port=300 --User=root], and the destination after the call. *)
Definition frameFields : list Field :=
  [ exportedField "Host" reflect.String (StringValue "");
    exportedField "Port" reflect.Int8 (IntValue 0);
    exportedField "User" reflect.String (StringValue "nobody") ].

Definition frameArgs : list string :=
  ["prog"; "--Host=db"; "--Port=300"; "--User=root"].

Definition frameResult : Any :=
  structPointer
    [ exportedField "Host" reflect.String (StringValue "db");
      exportedField "Port" reflect.Int8 (IntValue 0);
      exportedField "User" reflect.String (StringValue "nobody") ].

(** [Name string; Verbose bool]. *)
Definition verboseFields (name : string) (verbose : bool) : list Field :=
  [ exportedField "Name" reflect.String (StringValue name);
    exportedField "Verbose" reflect.Bool (BoolValue verbose) ].

(** A [ParseFloat] that reads ["-1.5"] and ["0"], and nothing else. *)
Definition parseTwoFloats (s : string) : float64 + NumError :=
  if String.eqb s "-1.5" then inl (f64 (-3) (-1))
  else if String.eqb s "0" then inl (f64 0 0)
  else inr ErrSyntax.

(** ** Notions used to state further properties *)

(** The loop of [mapArgSlice] entered with a map [res] in place of the
    empty one: tokenizing [args] on top of what is already in [res]. *)
Definition mapArgSliceFrom (res : gmap string string) (args : list string)
    : gmap string string + Panic :=
  mapArgLoop (length args) args 0 res.

(** A long flag that carries no [=]. *)
Definition bareLongFlag (tok : string) : bool :=
  HasPrefix tok "--" && negb (Contains (TrimPrefix tok "--") "=").

(** The kinds that the [switch] of [Parse] names. *)
Definition supportedKind (k : reflect.Kind) : bool :=
  match k with
  | reflect.String | reflect.Bool => true
  | _ => signedKind k || unsignedKind k || floatKind k
  end.

(** The bytes of a string. *)
Fixpoint bytesOf (s : string) : list ascii :=
  match s with
  | EmptyString => []
  | String c s' => c :: bytesOf s'
  end.

Definition isASCII (c : ascii) : bool := (N_of_ascii c <? 128)%N.

(** The outcome is a panic. *)
Definition panics {A : Type} (r : A + Panic) : bool :=
  match r with inl _ => false | inr _ => true end.

(** [r2] is the map of [r1], or a panic where [r1] is one. *)
Definition sameResult (r1 r2 : gmap string string + Panic) : Prop :=
  match r1 with
  | inl m => r2 = inl m
  | inr _ => panics r2 = true
  end.

(** Two fields of one name, package path and kind: one field of the
    struct type, whatever it holds. *)
Definition sameShape (f f' : Field) : Prop :=
  Name f' = Name f /\ PkgPath f' = PkgPath f /\ Kind f' = Kind f.

(** What a call that returns nil has done to a field [f], leaving [f']:
    by the kind of [f], the value that [f'] holds in terms of the text
    under the name of [f] in the map. *)
Definition boundFrom (ParseFloat : string -> float64 + NumError)
    (args : gmap string string) (f f' : Field) : Prop :=
  sameShape f f' /\
  let raw := lookupArg args (Name f) in
  match Kind f with
  | reflect.String => IsExported f = true /\ Val f' = StringValue raw
  | reflect.Bool =>
      match args !! Name f with
      | Some value =>
          IsExported f = true /\ Val f' = BoolValue (EqualFold_true value)
      | None => Val f' = Val f
      end
  | k =>
      if signedKind k then
        IsExported f = true /\
        exists n : Z, integerLiteral raw = Some n /\
                      minInt k <= n <= maxInt k /\ Val f' = IntValue n
      else if unsignedKind k then
        IsExported f = true /\
        exists n : Z, naturalLiteral raw = Some n /\
                      0 <= n <= maxUint k /\ Val f' = UintValue n
      else if floatKind k then
        IsExported f = true /\
        exists x : float64, ParseFloat raw = inl x /\
                            checkFloatOverflow x k = true /\
                            Val f' = FloatValue
                                       (match k with
                                        | reflect.Float32 => toFloat32 x
                                        | _ => x
                                        end)
      else False
  end.

(** The field [f] as its package would export it. *)
Definition asExported (f : Field) : Field :=
  {| Name := Name f; PkgPath := ""; Kind := Kind f; Val := Val f |}.

(** The kinds that [Parse] binds whose width the target decides, [int] and
    [uint]: what a field of such a kind can hold is not the same on every
    target. *)
Definition targetSized (k : reflect.Kind) : bool :=
  match k with
  | reflect.Int | reflect.Uint => true
  | _ => false
  end.

(** [verbose bool], which package [main] does not export, and
    [Name string]. *)
Definition hiddenFields (verbose : bool) (name : string) : list Field :=
  [ unexportedField "verbose" reflect.Bool (BoolValue verbose);
    exportedField "Name" reflect.String (StringValue name) ].

(** * Properties *)

(** ** The loop over the fields *)

Section BinderFacts.

Variable ParseFloat : string -> float64 + NumError.
Variable args : gmap string string.

Abbreviation bindField := (bindField ParseFloat args).
Abbreviation bindFields := (bindFields ParseFloat args).

Lemma set_shape setter f v f' :
  set setter f v = Next f' ->
  Name f' = Name f /\ PkgPath f' = PkgPath f /\ Kind f' = Kind f /\
  Val f' = v /\ IsExported f = true.
Proof.
  unfold set. destruct (IsExported f) eqn:E; [|discriminate].
  intros [= <-]. auto.
Qed.

(** A field keeps its name, package path and kind when it is assigned. *)
Lemma bindField_shape f f' :
  bindField f = Next f' ->
  Name f' = Name f /\ PkgPath f' = PkgPath f /\ Kind f' = Kind f.
Proof.
  unfold bindField, SetString, SetBool, SetInt, SetUint, SetFloat, fail.
  intros H.
  assert (Hset : forall setter v, set setter f v = Next f' ->
                 Name f' = Name f /\ PkgPath f' = PkgPath f /\ Kind f' = Kind f).
  { intros setter v Hs. apply set_shape in Hs. tauto. }
  destruct (Kind f) eqn:K;
    repeat match type of H with
           | match ?x with _ => _ end = _ => destruct x eqn:?
           | (if ?x then _ else _) = _ => destruct x eqn:?
           end;
    try discriminate; eauto.
  injection H as <-. rewrite K. auto.
Qed.

(** The loop neither adds nor drops a field. *)
Lemma bindFields_length fields fields' o :
  bindFields fields = (fields', o) -> length fields' = length fields.
Proof.
  revert fields' o. induction fields as [|f rest IH]; simpl; intros fields' o H.
  - injection H as <- <-. reflexivity.
  - destruct (bindField f) as [f'|o'].
    + destruct (bindFields rest) as [rest' o''] eqn:E.
      injection H as <- <-. simpl. f_equal. eauto.
    + injection H as <- <-. reflexivity.
Qed.

(** Where the loop ends otherwise than by a nil error, it stopped at some
    field [i]: the fields before it were assigned, and field [i] and all
    fields after it are as they were. *)
Lemma bindFields_stop fields fields' o :
  bindFields fields = (fields', o) ->
  o <> Returned None ->
  exists (i : nat) (f : Field),
    fields !! i = Some f /\
    bindField f = Stop o /\
    (forall j : nat, (i <= j)%nat -> fields' !! j = fields !! j) /\
    (forall (j : nat) (g : Field), (j < i)%nat -> fields !! j = Some g ->
       exists g', bindField g = Next g' /\ fields' !! j = Some g').
Proof.
  revert fields' o. induction fields as [|f rest IH]; simpl; intros fields' o H Ho.
  - injection H as <- <-. congruence.
  - destruct (bindField f) as [f'|o'] eqn:Ef.
    + destruct (bindFields rest) as [rest' o''] eqn:E.
      injection H as <- <-.
      destruct (IH _ _ eq_refl Ho) as (i & g & Hi & Hg & Hafter & Hbefore).
      exists (S i), g. repeat split; auto.
      * intros [|j] Hj; [lia|]. simpl. apply Hafter. lia.
      * intros [|j] g0 Hj Hg0; simpl in *.
        -- injection Hg0 as <-. eauto.
        -- apply Hbefore; [lia|assumption].
    + injection H as <- <-.
      exists 0%nat, f. repeat split; auto.
      intros j g Hj. lia.
Qed.

(** Where the loop ends with a nil error, every field was assigned. *)
Lemma bindFields_done fields fields' :
  bindFields fields = (fields', Returned None) ->
  Forall2 (fun f f' => bindField f = Next f') fields fields'.
Proof.
  revert fields'. induction fields as [|f rest IH]; simpl; intros fields' H.
  - injection H as <-. constructor.
  - destruct (bindField f) as [f'|o'] eqn:Ef.
    + destruct (bindFields rest) as [rest' o''] eqn:E.
      injection H as <- ->. constructor; auto.
    + injection H as _ ->. 
      exfalso. clear -Ef.
      unfold bindField, SetString, SetBool, SetInt, SetUint, SetFloat, set, fail in Ef.
      repeat match type of Ef with
             | match ?x with _ => _ end = _ => destruct x eqn:?
             | (if ?x then _ else _) = _ => destruct x eqn:?
             end; discriminate.
Qed.

Lemma bindFields_all fields fields' :
  Forall2 (fun f f' => bindField f = Next f') fields fields' ->
  bindFields fields = (fields', Returned None).
Proof.
  induction 1 as [|f f' rest rest' Hf _ IH]; simpl; [reflexivity|].
  rewrite Hf, IH. reflexivity.
Qed.

End BinderFacts.

Section ParseFacts.

Variable ParseFloat : string -> float64 + NumError.

Abbreviation bindField := (bindField ParseFloat).
Abbreviation bindFields := (bindFields ParseFloat).

(** After the loop, a field is as it was or as its own pass assigned it. *)
Lemma bindFields_lookup args fields fields' o (i : nat) f :
  bindFields args fields = (fields', o) ->
  fields !! i = Some f ->
  fields' !! i = Some f \/
  exists f', bindField args f = Next f' /\ fields' !! i = Some f'.
Proof.
  revert fields' o i. induction fields as [|g rest IH]; intros fields' o i H Hi.
  - discriminate.
  - simpl in H. destruct (bindField args g) as [g'|o'] eqn:Eg.
    + destruct (bindFields args rest) as [rest' o''] eqn:E.
      injection H as <- <-. destruct i as [|i]; simpl in *.
      * injection Hi as <-. right. eauto.
      * eapply IH; eauto.
    + injection H as <- <-. left. assumption.
Qed.

(** The loop over [pre ++ field :: post] when every field of [pre] binds. *)
Lemma bindFields_at args pre pre' field post :
  bindFields args pre = (pre', Returned None) ->
  bindFields args (pre ++ field :: post) =
    match bindField args field with
    | Next field' =>
        let '(post', o) := bindFields args post in (pre' ++ field' :: post', o)
    | Stop o => (pre' ++ field :: post, o)
    end.
Proof.
  intros H. apply bindFields_done in H.
  induction H as [|g g' pre pre' Hg _ IH]; simpl.
  - destruct (bindField args field); [|reflexivity].
    destruct (bindFields args post). reflexivity.
  - rewrite Hg, IH.
    destruct (bindField args field); [|reflexivity].
    destruct (bindFields args post). reflexivity.
Qed.

(** [Parse] on a struct, once [os.Args[1:]] is tokenized without a panic. *)
Lemma Parse_struct fields config prog rest args :
  mapArgSlice rest = inl args ->
  Parse ParseFloat (structPointer fields) config (prog :: rest) =
    let '(fields', o) := bindFields args fields in (structPointer fields', o).
Proof. intros H. unfold Parse, structPointer. rewrite H. reflexivity. Qed.

(** [Parse] when its loop stops at [field], the fields before it bound. *)
Lemma Parse_stops_at config prog rest args pre pre' field post o :
  mapArgSlice rest = inl args ->
  bindFields args pre = (pre', Returned None) ->
  bindField args field = Stop o ->
  Parse ParseFloat (structPointer (pre ++ field :: post)) config (prog :: rest) =
    (structPointer (pre' ++ field :: post), o).
Proof.
  intros Hm Hpre Hf. rewrite (Parse_struct _ _ _ _ _ Hm).
  rewrite (bindFields_at _ _ _ _ _ Hpre), Hf. reflexivity.
Qed.

End ParseFacts.

(** ** The destination *)

(** C7: a destination that is not a non-nil pointer to a struct is rejected
    with one of the three destination errors, whatever [os.Args] and the
    configuration are, and is returned as it was. *)
Theorem Parse_invalid_destination (ParseFloat : string -> float64 + NumError)
    (s : Any) :
  isStructPointer s = false ->
  exists e : Error,
    invalidDestination e = true /\
    forall (config : option Config) (osArgs : list string),
      Parse ParseFloat s config osArgs = (s, Returned (Some e)).
Proof.
  intros H. destruct s as [k|[[fields|k]|]]; try discriminate.
  - exists (ExpectedPointer k). split; reflexivity.
  - exists NotAStruct. split; reflexivity.
  - exists NilDestination. split; reflexivity.
Qed.

Lemma Parse_invalid_destination_witness :
  isStructPointer (PointerTo (Some (NonStruct reflect.Int))) = false /\
  exists e : Error,
    invalidDestination e = true /\
    forall (config : option Config) (osArgs : list string),
      Parse rejectFloats (PointerTo (Some (NonStruct reflect.Int))) config osArgs
      = (PointerTo (Some (NonStruct reflect.Int)), Returned (Some e)).
Proof.
  split; [reflexivity|].
  apply (Parse_invalid_destination rejectFloats
           (PointerTo (Some (NonStruct reflect.Int)))).
  reflexivity.
Defined.

(** ** Fail-fast *)

(** C8: when [Parse] returns an error, its loop stopped at some field [i]
    whose pass raised that error; field [i] and every field after it are as
    they were before the call, and the fields before [i] are as their own
    passes assigned them. *)
Theorem Parse_error_frame (ParseFloat : string -> float64 + NumError)
    (fields : list Field) (config : option Config)
    (osArgs : list string) (s' : Any) (e : Error) :
  Parse ParseFloat (structPointer fields) config osArgs = (s', Returned (Some e)) ->
  exists (args : gmap string string) (fields' : list Field) (i : nat) (f : Field),
    mapArgSlice (drop 1 osArgs) = inl args /\
    s' = structPointer fields' /\
    length fields' = length fields /\
    fields !! i = Some f /\
    bindField ParseFloat args f = Stop (Returned (Some e)) /\
    (forall j : nat, (i <= j)%nat -> fields' !! j = fields !! j) /\
    (forall (j : nat) (g : Field), (j < i)%nat -> fields !! j = Some g ->
       exists g', bindField ParseFloat args g = Next g' /\ fields' !! j = Some g').
Proof.
  unfold Parse, structPointer. intros H.
  destruct osArgs as [|prog rest]; [discriminate|].
  change (drop 1 (prog :: rest)) with rest.
  destruct (mapArgSlice rest) as [args|p] eqn:Hm; [|discriminate].
  destruct (bindFields ParseFloat args fields) as [fields' o] eqn:E.
  injection H as <- ->.
  destruct (bindFields_stop _ _ _ _ _ E) as (i & f & Hi & Hf & Hafter & Hbefore);
    [discriminate|].
  exists args, fields', i, f. repeat split; eauto using bindFields_length.
Qed.

(** [--Host=db --Port=300 --User=root]: [Host] is assigned, [Port] overflows,
    [User] is as it was. *)
Lemma Parse_error_frame_witness :
  Parse rejectFloats (structPointer frameFields) None frameArgs
    = (frameResult, Returned (Some (Overflow 300 reflect.Int8))) /\
  exists (args : gmap string string) (fields' : list Field) (i : nat) (f : Field),
    mapArgSlice (drop 1 frameArgs) = inl args /\
    frameResult = structPointer fields' /\
    length fields' = length frameFields /\
    frameFields !! i = Some f /\
    bindField rejectFloats args f = Stop (Returned (Some (Overflow 300 reflect.Int8))) /\
    (forall j : nat, (i <= j)%nat -> fields' !! j = frameFields !! j) /\
    (forall (j : nat) (g : Field), (j < i)%nat -> frameFields !! j = Some g ->
       exists g', bindField rejectFloats args g = Next g' /\ fields' !! j = Some g').
Proof.
  split; [vm_compute; reflexivity|].
  apply (Parse_error_frame rejectFloats frameFields None frameArgs).
  vm_compute; reflexivity.
Defined.

(** ** The tokenizer at the end of the arguments *)

Lemma HasPrefix_dash2_dash1 s : HasPrefix s "--" = true -> HasPrefix s "-" = true.
Proof.
  destruct s as [|c s]; simpl; [discriminate|].
  destruct (Ascii.eqb c "-"); [reflexivity|discriminate].
Qed.

(** From any index on, the loop panics when the last argument is a long
    flag without [=]: no pass steps over the last argument, since an
    argument that starts with a dash is never taken as a value. *)
Lemma mapArgLoop_trailing_long_flag (pre : list string) (flag : string) :
  HasPrefix flag "--" = true ->
  Contains (TrimPrefix flag "--") "=" = false ->
  forall (fuel i : nat) (res : gmap string string),
    (i <= length pre)%nat ->
    (length pre + 1 - i <= fuel)%nat ->
    exists p : Panic, mapArgLoop fuel (pre ++ [flag]) i res = inr p.
Proof.
  intros Hlong Hno. induction fuel as [|fuel IH]; intros i res Hi Hfuel; [lia|].
  cbn [mapArgLoop].
  destruct (decide (i = length pre)) as [->|Hne].
  - rewrite list_lookup_middle by reflexivity. rewrite Hlong, Hno.
    rewrite lookup_ge_None_2 by (rewrite length_app; simpl; lia). eauto.
  - assert (Hlt : (i < length pre)%nat) by lia.
    destruct (lookup_lt_is_Some_2 pre i Hlt) as [arg Harg].
    rewrite lookup_app_l, Harg by assumption.
    assert (Hnext : forall res', exists p,
               mapArgLoop fuel (pre ++ [flag]) (S i) res' = inr p).
    { intros res'. apply IH; lia. }
    destruct (HasPrefix arg "--").
    + destruct (Contains (TrimPrefix arg "--") "=").
      * destruct (SplitN2 (TrimPrefix arg "--") "=" !! 0%nat),
          (SplitN2 (TrimPrefix arg "--") "=" !! 1%nat); eauto.
      * destruct ((pre ++ [flag]) !! (i + 1)%nat) as [next|] eqn:En; [|eauto].
        destruct (HasPrefix next "-") eqn:Ed; [apply Hnext|].
        apply IH; [|lia].
        destruct (decide (i + 1 = length pre)%nat) as [Heq|]; [|lia].
        rewrite Heq, list_lookup_middle in En by reflexivity.
        injection En as <-. apply HasPrefix_dash2_dash1 in Hlong. congruence.
    + destruct (HasPrefix arg "-"); apply Hnext.
Qed.

Lemma cut_Contains s sep :
  Contains s sep = true -> exists before after, cut s sep = Some (before, after).
Proof.
  induction s as [|c s IH]; cbn [Contains cut]; intros H.
  - rewrite orb_false_r in H. rewrite H. eauto.
  - destruct (HasPrefix (String c s) sep); [eauto|].
    destruct (IH H) as (before & after & ->). eauto.
Qed.

(** The only panic of the tokenizer is the lookahead one past the end. *)
Lemma mapArgLoop_panic (args : list string) (p : Panic) :
  forall (fuel i : nat) (res : gmap string string),
    mapArgLoop fuel args i res = inr p ->
    p = IndexOutOfRange (length args) (length args).
Proof.
  induction fuel as [|fuel IH]; intros i res H; [discriminate|].
  cbn [mapArgLoop] in H.
  destruct (args !! i) as [arg|] eqn:E; [|discriminate].
  apply lookup_lt_Some in E.
  destruct (HasPrefix arg "--").
  - destruct (Contains (TrimPrefix arg "--") "=") eqn:C.
    + unfold SplitN2 in H.
      destruct (cut_Contains _ _ C) as (before & after & Ec).
      rewrite Ec in H. cbn [lookup list_lookup] in H. eauto.
    + destruct (args !! (i + 1)%nat) as [next|] eqn:En.
      * destruct (HasPrefix next "-"); eauto.
      * apply lookup_ge_None_1 in En. injection H as <-. f_equal. lia.
  - destruct (HasPrefix arg "-"); eauto.
Qed.

(** C1: [mapArgSlice] panics on every argument sequence whose last token
    is a long flag without [=]: the lookahead [args[i+1]] is out of range.
    It binds no empty value. *)
Theorem mapArgSlice_trailing_long_flag_panics (pre : list string) (flag : string) :
  HasPrefix flag "--" = true ->
  Contains (TrimPrefix flag "--") "=" = false ->
  mapArgSlice (pre ++ [flag])
  = inr (IndexOutOfRange (length (pre ++ [flag])) (length (pre ++ [flag]))).
Proof.
  intros Hlong Hno. unfold mapArgSlice.
  destruct (mapArgLoop_trailing_long_flag pre flag Hlong Hno
              (length (pre ++ [flag])) 0 ∅) as [p Hp];
    [lia | rewrite length_app; simpl; lia |].
  rewrite Hp. f_equal. eapply mapArgLoop_panic. exact Hp.
Qed.

Lemma mapArgSlice_trailing_long_flag_witness :
  (forall (ParseFloat : string -> float64 + NumError) (v : Value),
     Parse ParseFloat (structPointer [exportedField "flag" reflect.Bool v]) None
       ["prog"; "--flag"]
     = (structPointer [exportedField "flag" reflect.Bool v],
        Panicked (IndexOutOfRange 1 1))) /\
  mapArgSlice ["--flag"] = inr (IndexOutOfRange 1 1).
Proof.
  split; [intros; reflexivity|].
  apply (mapArgSlice_trailing_long_flag_panics [] "--flag"); reflexivity.
Defined.

(** ** Boolean fields *)

(** C2: [-ABC] into the exported boolean fields [A], [B], [C] assigns
    false to all three, whatever they held; [-abc] into the fields [a],
    [b], [c], which Go does not export, panics in [SetBool]. No field
    becomes true. *)
Theorem Parse_short_flag_cluster (ParseFloat : string -> float64 + NumError) :
  (forall x y z : bool,
     Parse ParseFloat
       (structPointer [ exportedField "A" reflect.Bool (BoolValue x);
                        exportedField "B" reflect.Bool (BoolValue y);
                        exportedField "C" reflect.Bool (BoolValue z) ])
       None ["prog"; "-ABC"]
     = (structPointer [ exportedField "A" reflect.Bool (BoolValue false);
                        exportedField "B" reflect.Bool (BoolValue false);
                        exportedField "C" reflect.Bool (BoolValue false) ],
        Returned None)) /\
  (forall x y z : bool,
     Parse ParseFloat
       (structPointer [ unexportedField "a" reflect.Bool (BoolValue x);
                        unexportedField "b" reflect.Bool (BoolValue y);
                        unexportedField "c" reflect.Bool (BoolValue z) ])
       None ["prog"; "-abc"]
     = (structPointer [ unexportedField "a" reflect.Bool (BoolValue x);
                        unexportedField "b" reflect.Bool (BoolValue y);
                        unexportedField "c" reflect.Bool (BoolValue z) ],
        Panicked (UnexportedField "SetBool"))).
Proof. split; intros; vm_compute; reflexivity. Qed.

(** A boolean field whose name is not a key of the map is stepped over. *)
Lemma bindField_bool_absent (ParseFloat : string -> float64 + NumError)
    (args : gmap string string) (f : Field) :
  Kind f = reflect.Bool -> args !! Name f = None ->
  bindField ParseFloat args f = Next f.
Proof. intros K H. unfold bindField. rewrite K, H. reflexivity. Qed.

(** C3, as the code has it: a boolean field whose name is not a key of the
    flag map is left as it was before the call, however the call ends; it
    is false after the call only if it was false before. *)
Theorem Parse_absent_bool_unchanged (ParseFloat : string -> float64 + NumError)
    (fields : list Field) (config : option Config) (osArgs : list string)
    (args : gmap string string) (s' : Any) (o : Outcome) (i : nat) (f : Field) :
  mapArgSlice (drop 1 osArgs) = inl args ->
  fields !! i = Some f ->
  Kind f = reflect.Bool ->
  args !! Name f = None ->
  Parse ParseFloat (structPointer fields) config osArgs = (s', o) ->
  exists fields' : list Field,
    s' = structPointer fields' /\ fields' !! i = Some f.
Proof.
  intros Hm Hi K Habsent H. unfold Parse, structPointer in H.
  destruct osArgs as [|prog rest].
  - injection H as <- <-. eauto.
  - change (drop 1 (prog :: rest)) with rest in Hm. rewrite Hm in H.
    destruct (bindFields ParseFloat args fields) as [fields' o'] eqn:E.
    injection H as <- <-. exists fields'. split; [reflexivity|].
    destruct (bindFields_lookup _ _ _ _ _ _ _ E Hi) as [?|(f' & Hf' & ?)];
      [assumption|].
    rewrite (bindField_bool_absent _ _ _ K Habsent) in Hf'. congruence.
Qed.

(** [--Name=x] with [Verbose] true before the call. *)
Lemma Parse_absent_bool_unchanged_witness :
  exists fields' : list Field,
    structPointer (verboseFields "x" true) = structPointer fields' /\
    fields' !! 1%nat = Some (exportedField "Verbose" reflect.Bool (BoolValue true)).
Proof.
  apply (Parse_absent_bool_unchanged rejectFloats (verboseFields "" true) None
           ["prog"; "--Name=x"] (<["Name" := "x"]> ∅)
           (structPointer (verboseFields "x" true)) (Returned None) 1%nat
           (exportedField "Verbose" reflect.Bool (BoolValue true)));
    vm_compute; reflexivity.
Defined.

(** C3, as it is stated, fails: with no arguments at all, a boolean field
    that held true still holds true after a call that returns nil. *)
Lemma Parse_absent_bool_not_false :
  mapArgSlice [] = inl ∅ /\
  (∅ : gmap string string) !! "Verbose" = None /\
  Parse rejectFloats
    (structPointer [exportedField "Verbose" reflect.Bool (BoolValue true)])
    None ["prog"]
  = (structPointer [exportedField "Verbose" reflect.Bool (BoolValue true)],
     Returned None) /\
  BoolValue true <> BoolValue false.
Proof. repeat split; discriminate. Qed.

(** ** [strconv]: what the two integer parsers accept *)

Lemma digitVal_digit c d :
  digitVal c = Some d -> (10 <=? d) = false ->
  isDigit c = true /\ d = Z.of_N (N_of_ascii c) - 48.
Proof.
  unfold digitVal, isDigit. intros H Hd.
  destruct ((48 <=? Z.of_N (N_of_ascii c)) && (Z.of_N (N_of_ascii c) <=? 57)).
  - injection H as <-. auto.
  - destruct ((97 <=? Z.of_N (N_of_ascii (lower c)))
              && (Z.of_N (N_of_ascii (lower c)) <=? 122)) eqn:E; [|discriminate].
    injection H as <-. lia.
Qed.

Lemma isDigit_digitVal c :
  isDigit c = true ->
  digitVal c = Some (Z.of_N (N_of_ascii c) - 48) /\
  0 <= Z.of_N (N_of_ascii c) - 48 < 10.
Proof.
  unfold digitVal, isDigit. intros H. rewrite H. split; [reflexivity|lia].
Qed.

Lemma decimalValue_ge s : forall acc n,
  0 <= acc -> decimalValue s acc = Some n -> acc <= n.
Proof.
  induction s as [|c s IH]; simpl; intros acc n Hacc H.
  - injection H as <-. lia.
  - destruct (isDigit c) eqn:D; [|discriminate].
    apply isDigit_digitVal in D as [_ D]. apply IH in H; lia.
Qed.

(** The digit loop reads exactly the digit strings whose value fits 64 bits. *)
Lemma parseDigits_spec s : forall acc n,
  0 <= acc <= MaxUint64 ->
  parseDigits s acc = inl n <-> decimalValue s acc = Some n /\ n <= MaxUint64.
Proof.
  unfold MaxUint64.
  induction s as [|c s IH]; intros acc n Hacc; simpl.
  - split; [intros [= <-]; split; [reflexivity|lia] | intros [[= <-] _]; reflexivity].
  - split.
    + destruct (digitVal c) as [d|] eqn:Ed; [|discriminate].
      destruct (10 <=? d) eqn:E10; [discriminate|].
      destruct (digitVal_digit _ _ Ed E10) as [D ->]. rewrite D.
      apply isDigit_digitVal in D as [_ D].
      destruct (_ <=? acc) eqn:Ecut; [discriminate|].
      unfold MaxUint64, wrapU64 in *.
      change (18446744073709551615 / 10 + 1) with 1844674407370955162 in Ecut.
      change (2 ^ 64) with 18446744073709551616.
      rewrite (Z.mod_small (acc * 10)) by lia.
      destruct (_ || _) eqn:Echk; [discriminate|].
      apply orb_false_iff in Echk as [E1 E2].
      assert (Hsmall : acc * 10 + (Z.of_N (N_of_ascii c) - 48) < 18446744073709551616).
      { destruct (Z_lt_ge_dec (acc * 10 + (Z.of_N (N_of_ascii c) - 48))
                    18446744073709551616) as [?|Hge]; [assumption|].
        exfalso. revert E1.
        replace ((acc * 10 + (Z.of_N (N_of_ascii c) - 48)) mod 18446744073709551616)
          with (acc * 10 + (Z.of_N (N_of_ascii c) - 48) - 18446744073709551616).
        - lia.
        - apply Z.mod_unique with (q := 1); lia. }
      rewrite Z.mod_small by lia. intros H. apply IH in H; [assumption|lia].
    + intros [H Hn]. destruct (isDigit c) eqn:D; [|discriminate].
      destruct (isDigit_digitVal _ D) as [-> Hd].
      assert (Hge : acc * 10 + (Z.of_N (N_of_ascii c) - 48) <= n)
        by (eapply decimalValue_ge; [|exact H]; lia).
      rewrite (proj2 (Z.leb_gt 10 _)) by lia. unfold MaxUint64.
      change (18446744073709551615 / 10 + 1) with 1844674407370955162.
      rewrite (proj2 (Z.leb_gt _ acc)) by lia.
      unfold wrapU64. change (2 ^ 64) with 18446744073709551616.
      rewrite (Z.mod_small (acc * 10)) by lia.
      rewrite Z.mod_small by lia.
      rewrite (proj2 (Z.ltb_ge _ _)), (proj2 (Z.ltb_ge _ _)) by lia. simpl orb.
      apply IH; [lia|auto].
Qed.

(** [ParseUint] accepts exactly the digit strings below [2^64], with
    their value. *)
Lemma ParseUint_spec s n :
  ParseUint s = inl n <-> naturalLiteral s = Some n /\ n <= MaxUint64.
Proof.
  unfold ParseUint, naturalLiteral. destruct s as [|c s].
  - split; [discriminate | intros [[=] _]].
  - apply parseDigits_spec. unfold MaxUint64. lia.
Qed.

Lemma naturalLiteral_nonneg s n : naturalLiteral s = Some n -> 0 <= n.
Proof.
  unfold naturalLiteral. destruct s; [discriminate|].
  apply decimalValue_ge. lia.
Qed.


Lemma wrapSigned_small bits n :
  0 < bits -> - 2 ^ (bits - 1) <= n < 2 ^ (bits - 1) -> wrapSigned bits n = n.
Proof.
  intros Hb Hn. unfold wrapSigned.
  assert (E : 2 ^ bits = 2 * 2 ^ (bits - 1)).
  { replace bits with (Z.succ (bits - 1)) at 1 by lia. apply Z.pow_succ_r. lia. }
  rewrite E, Z.mod_small; lia.
Qed.

(** [ParseInt] accepts exactly the signed digit strings whose value is an
    [int64], with their value. *)
Lemma ParseInt_spec s n :
  ParseInt s = inl n <->
  integerLiteral s = Some n /\ MinInt64 <= n <= MaxInt64.
Proof.
  unfold ParseInt, integerLiteral, MinInt64, MaxInt64.
  destruct s as [|c rest]; [split; [discriminate | intros [[=] _]]|].
  change (2 ^ 63) with 9223372036854775808.
  assert (Hneg : wrapSigned 64 (- wrapSigned 64 9223372036854775808)
                 = -9223372036854775808) by reflexivity.
  assert (Hw : forall x, -9223372036854775808 <= x < 9223372036854775808 ->
                         wrapSigned 64 x = x).
  { intros x Hx. apply wrapSigned_small; [lia|]. 
    change (2 ^ (64 - 1)) with 9223372036854775808. lia. }
  destruct (Ascii.eqb c "-") eqn:Em; [|destruct (Ascii.eqb c "+") eqn:Ep];
    cbv zeta; rewrite ?orb_true_r; cbn [orb negb andb].
  - (* a minus sign *)
    split.
    + destruct (ParseUint rest) as [un|e] eqn:E; [|discriminate].
      apply ParseUint_spec in E as [E Hmax]. rewrite E.
      pose proof (naturalLiteral_nonneg _ _ E) as H0. simpl.
      destruct (_ <? un) eqn:Ec; [discriminate|].
      intros [= <-].
      destruct (Z.eq_dec un 9223372036854775808) as [->|Hne].
      * rewrite Hneg. split; [reflexivity|lia].
      * rewrite (Hw un), Hw by lia. split; [reflexivity|lia].
    + intros [H Hn]. destruct (naturalLiteral rest) as [un|] eqn:E; [|discriminate].
      injection H as <-.
      pose proof (naturalLiteral_nonneg _ _ E) as H0.
      assert (EU : ParseUint rest = inl un).
      { apply ParseUint_spec. unfold MaxUint64. split; [assumption|lia]. }
      rewrite EU. simpl.
      rewrite (proj2 (Z.ltb_ge _ un)) by lia.
      destruct (Z.eq_dec un 9223372036854775808) as [->|Hne].
      * rewrite Hneg. reflexivity.
      * rewrite (Hw un), Hw by lia. reflexivity.
  - (* a plus sign *)
    split.
    + destruct (ParseUint rest) as [un|e] eqn:E; [|discriminate].
      apply ParseUint_spec in E as [E Hmax]. rewrite E.
      pose proof (naturalLiteral_nonneg _ _ E) as H0. simpl.
      destruct (_ <=? un) eqn:Ec; [discriminate|].
      intros [= <-]. rewrite Hw by lia. split; [reflexivity|lia].
    + intros [H Hn].
      pose proof (naturalLiteral_nonneg _ _ H) as H0.
      assert (EU : ParseUint rest = inl n).
      { apply ParseUint_spec. unfold MaxUint64. split; [assumption|lia]. }
      rewrite EU. simpl. rewrite (proj2 (Z.leb_gt _ n)) by lia.
      rewrite Hw by lia. reflexivity.
  - (* no sign *)
    split.
    + destruct (ParseUint (String c rest)) as [un|e] eqn:E; [|discriminate].
      apply ParseUint_spec in E as [E Hmax]. rewrite E.
      pose proof (naturalLiteral_nonneg _ _ E) as H0. simpl.
      destruct (_ <=? un) eqn:Ec; [discriminate|].
      intros [= <-]. rewrite Hw by lia. split; [reflexivity|lia].
    + intros [H Hn].
      pose proof (naturalLiteral_nonneg _ _ H) as H0.
      assert (EU : ParseUint (String c rest) = inl n).
      { apply ParseUint_spec. unfold MaxUint64. split; [assumption|lia]. }
      rewrite EU. simpl. rewrite (proj2 (Z.leb_gt _ n)) by lia.
      rewrite Hw by lia. reflexivity.
Qed.


(** ** Integer fields *)

Lemma checkIntOverflow_spec n k :
  signedKind k = true ->
  checkIntOverflow n k = inRangeZ (minInt k) (maxInt k) n.
Proof.
  unfold inRangeZ, minInt, maxInt.
  destruct k; try discriminate; intros _; simpl;
    unfold MaxInt8, MinInt8, MaxInt16, MinInt16, MaxInt32, MinInt32,
      MaxInt64, MinInt64; lia.
Qed.

Lemma checkUIntOverflow_spec n k :
  unsignedKind k = true ->
  checkUIntOverflow n k = inRangeZ 0 (maxUint k) n.
Proof.
  unfold inRangeZ, maxUint.
  destruct k; try discriminate; intros _; simpl;
    unfold MaxUint8, MaxUint16, MaxUint32, MaxUint64; lia.
Qed.

Lemma wrapSigned_inRange k n :
  signedKind k = true -> inRangeZ (minInt k) (maxInt k) n = true ->
  wrapSigned (bitSize k) n = n.
Proof.
  unfold inRangeZ, minInt, maxInt. intros K H.
  apply wrapSigned_small; [destruct k; simpl; lia | lia].
Qed.

Lemma wrapUnsigned_inRange k n :
  inRangeZ 0 (maxUint k) n = true -> wrapUnsigned (bitSize k) n = n.
Proof.
  unfold inRangeZ, maxUint, wrapUnsigned. intros H. apply Z.mod_small. lia.
Qed.

(** The pass of the loop for a field of a signed kind, in terms of what
    its text denotes. *)
Lemma bindField_signed ParseFloat args f :
  signedKind (Kind f) = true ->
  bindField ParseFloat args f =
    match ParseInt (lookupArg args (Name f)) with
    | inr err => fail (StrconvError "ParseInt" err)
    | inl n =>
        if inRangeZ (minInt (Kind f)) (maxInt (Kind f)) n
        then set "SetInt" f (IntValue n)
        else fail (Overflow n (Kind f))
    end.
Proof.
  intros K. unfold bindField.
  assert (E : forall n, (if negb (checkIntOverflow n (Kind f))
                         then fail (Overflow n (Kind f)) else SetInt f n)
                        = if inRangeZ (minInt (Kind f)) (maxInt (Kind f)) n
                          then set "SetInt" f (IntValue n)
                          else fail (Overflow n (Kind f))).
  { intros n. rewrite checkIntOverflow_spec by assumption.
    destruct (inRangeZ _ _ n) eqn:R; [|reflexivity].
    simpl. unfold SetInt. rewrite wrapSigned_inRange by assumption. reflexivity. }
  destruct (Kind f); try discriminate;
    destruct (ParseInt _); try reflexivity; apply E.
Qed.

(** The pass of the loop for a field of an unsigned kind. *)
Lemma bindField_unsigned ParseFloat args f :
  unsignedKind (Kind f) = true ->
  bindField ParseFloat args f =
    if Contains (lookupArg args (Name f)) "-"
    then fail (Underflow (lookupArg args (Name f)) (Kind f))
    else
      match ParseUint (lookupArg args (Name f)) with
      | inr err => fail (StrconvError "ParseUint" err)
      | inl n =>
          if inRangeZ 0 (maxUint (Kind f)) n
          then set "SetUint" f (UintValue n)
          else fail (Overflow n (Kind f))
      end.
Proof.
  intros K. unfold bindField.
  assert (E : forall n, (if negb (checkUIntOverflow n (Kind f))
                         then fail (Overflow n (Kind f)) else SetUint f n)
                        = if inRangeZ 0 (maxUint (Kind f)) n
                          then set "SetUint" f (UintValue n)
                          else fail (Overflow n (Kind f))).
  { intros n. rewrite checkUIntOverflow_spec by assumption.
    destruct (inRangeZ _ _ n) eqn:R; [|reflexivity].
    simpl. unfold SetUint. rewrite wrapUnsigned_inRange by assumption. reflexivity. }
  destruct (Kind f); try discriminate;
    destruct (Contains _ _); try reflexivity;
    destruct (ParseUint _); try reflexivity; apply E.
Qed.

(** C5: when the loop of [Parse] reaches a field of an unsigned kind whose
    text contains a [-], the call returns the underflow error for that
    text, whatever [ParseUint] would make of it; the field and the fields
    after it are as they were. *)
Theorem Parse_unsigned_minus_underflow
    (ParseFloat : string -> float64 + NumError) (config : option Config)
    (prog : string) (rest : list string) (args : gmap string string)
    (pre pre' : list Field) (f : Field) (post : list Field) :
  mapArgSlice rest = inl args ->
  bindFields ParseFloat args pre = (pre', Returned None) ->
  unsignedKind (Kind f) = true ->
  Contains (lookupArg args (Name f)) "-" = true ->
  Parse ParseFloat (structPointer (pre ++ f :: post)) config (prog :: rest)
  = (structPointer (pre' ++ f :: post),
     Returned (Some (Underflow (lookupArg args (Name f)) (Kind f)))).
Proof.
  intros Hm Hpre K Hminus.
  apply Parse_stops_at with (args := args); try assumption.
  rewrite bindField_unsigned, Hminus by assumption. reflexivity.
Qed.

(** [--n=-5] against a [uint32] field [n]. *)
Lemma Parse_unsigned_minus_underflow_witness :
  Parse rejectFloats
    (structPointer [unexportedField "n" reflect.Uint32 (UintValue 7)])
    None ["prog"; "--n=-5"]
  = (structPointer [unexportedField "n" reflect.Uint32 (UintValue 7)],
     Returned (Some (Underflow "-5" reflect.Uint32))).
Proof.
  pose proof (Parse_unsigned_minus_underflow rejectFloats None "prog" ["--n=-5"]
                (<["n" := "-5"]> ∅) [] []
                (unexportedField "n" reflect.Uint32 (UintValue 7)) []) as H.
  vm_compute in H |- *. apply H; reflexivity.
Defined.





(** ** The 64-bit kinds *)




(** ** Float fields *)

(** Every float below zero, and zero itself, is below the smallest
    positive float of either width, so [checkFloatOverflow] rejects it. *)
Lemma checkFloatOverflow_rejects_nonpositive (n : float64) (k : reflect.Kind) :
  SFleb n (S754_zero false) = true ->
  checkFloatOverflow n k = false.
Proof.
  intros H.
  assert (L32 : flt n SmallestNonzeroFloat32 = true).
  { destruct n as [s|s| |s m e]; try destruct s; try discriminate; reflexivity. }
  assert (L64 : flt n SmallestNonzeroFloat64 = true).
  { destruct n as [s|s| |s m e]; try destruct s; try discriminate; reflexivity. }
  destruct k; try reflexivity; simpl; rewrite ?L32, ?L64, orb_true_r; reflexivity.
Qed.

(** C4: [checkFloatOverflow] takes the smallest positive float for the
    lower bound, so at both widths it rejects -1.5, zero and the most
    negative float of the width, and [--X=-1.5] and [--X=0] against a float
    field [X] end with the overflow error. *)
Theorem Parse_float_rejects_nonpositive :
  (forall k : reflect.Kind,
     checkFloatOverflow (f64 (-3) (-1)) k = false /\
     checkFloatOverflow (f64 0 0) k = false /\
     checkFloatOverflow (SFopp MaxFloat32) k = false) /\
  (forall (ParseFloat : string -> float64 + NumError) (k : reflect.Kind)
          (x : float64) (text : string) (v : Value),
     floatKind k = true ->
     ParseFloat text = inl x ->
     SFleb x (S754_zero false) = true ->
     Parse ParseFloat (structPointer [exportedField "X" k v]) None
       ["prog"; "--X=" +:+ text]
     = (structPointer [exportedField "X" k v],
        Returned (Some (OverflowFloat x k)))).
Proof.
  split.
  - intros k. repeat split; apply checkFloatOverflow_rejects_nonpositive; reflexivity.
  - intros ParseFloat k x text v K E Hx.
    assert (Hm : mapArgSlice ["--X=" +:+ text] = inl (<["X" := text]> ∅)).
    { unfold mapArgSlice. simpl length. cbn [mapArgLoop].
      change (["--X=" +:+ text] !! 0%nat) with (Some ("--X=" +:+ text)).
      change (HasPrefix ("--X=" +:+ text) "--") with true. cbv iota.
      change (TrimPrefix ("--X=" +:+ text) "--") with ("X=" +:+ text).
      change (Contains ("X=" +:+ text) "=") with true. cbv iota.
      change (SplitN2 ("X=" +:+ text) "=") with ["X"; text].
      reflexivity. }
    apply (Parse_stops_at ParseFloat None "prog" _ _ [] [] _ [] _ Hm eq_refl).
    destruct k; try discriminate;
      unfold bindField, lookupArg; cbn [Kind Name exportedField];
      rewrite lookup_insert_eq; cbn [default]; unfold id;
      rewrite E, (checkFloatOverflow_rejects_nonpositive _ _ Hx); reflexivity.
Qed.

(** [--X=-1.5] against a [float32] field and [--X=0] against a [float64] field. *)
Lemma Parse_float_rejects_nonpositive_witness :
  Parse parseTwoFloats
    (structPointer [exportedField "X" reflect.Float32 (FloatValue (f64 0 0))])
    None ["prog"; "--X=-1.5"]
  = (structPointer [exportedField "X" reflect.Float32 (FloatValue (f64 0 0))],
     Returned (Some (OverflowFloat (f64 (-3) (-1)) reflect.Float32))) /\
  Parse parseTwoFloats
    (structPointer [exportedField "X" reflect.Float64 (FloatValue (f64 1 0))])
    None ["prog"; "--X=0"]
  = (structPointer [exportedField "X" reflect.Float64 (FloatValue (f64 1 0))],
     Returned (Some (OverflowFloat (f64 0 0) reflect.Float64))).
Proof.
  destruct Parse_float_rejects_nonpositive as [_ H].
  split.
  - apply (H parseTwoFloats reflect.Float32 (f64 (-3) (-1)) "-1.5"); reflexivity.
  - apply (H parseTwoFloats reflect.Float64 (f64 0 0) "0"); reflexivity.
Defined.

(** ** Decimal output is read back *)

Lemma digitChar_digit d :
  0 <= d < 10 ->
  isDigit (digitChar d) = true /\ Z.of_N (N_of_ascii (digitChar d)) - 48 = d.
Proof.
  intros Hd. unfold isDigit, digitChar.
  rewrite N_ascii_embedding by lia. rewrite Z2N.id by lia. split; lia.
Qed.

Lemma formatDigits_value fuel : forall n acc,
  0 <= n < 10 ^ Z.of_nat fuel ->
  decimalValue (formatDigits fuel n acc) 0 = decimalValue acc n.
Proof.
  induction fuel as [|fuel IH]; intros n acc Hn.
  - change (10 ^ Z.of_nat 0) with 1 in Hn. replace n with 0 by lia. reflexivity.
  - cbn [formatDigits].
    assert (Hmod : 0 <= n mod 10 < 10) by (apply Z.mod_pos_bound; lia).
    destruct (digitChar_digit _ Hmod) as [D V].
    destruct (n <? 10) eqn:E.
    + simpl. rewrite D, V. rewrite Z.mod_small by lia. reflexivity.
    + rewrite IH.
      * simpl. rewrite D, V. f_equal. rewrite (Z.div_mod n 10) at 3 by lia. lia.
      * rewrite Nat2Z.inj_succ, Z.pow_succ_r in Hn by lia.
        split; [apply Z.div_pos; lia | apply Z.div_lt_upper_bound; lia].
Qed.

Lemma formatDigits_nonempty fuel : forall n c acc,
  exists c' s', formatDigits fuel n (String c acc) = String c' s'.
Proof.
  induction fuel as [|fuel IH]; intros n c acc; cbn [formatDigits]; [eauto|].
  destruct (n <? 10); eauto.
Qed.

Lemma formatDigits_succ_nonempty fuel n acc :
  exists c s, formatDigits (S fuel) n acc = String c s.
Proof.
  cbn [formatDigits]. destruct (n <? 10); [eauto | apply formatDigits_nonempty].
Qed.

Lemma FormatUint_nonempty n : exists c s, FormatUint n = String c s.
Proof. exact (formatDigits_succ_nonempty 19 n ""). Qed.

Lemma FormatUint_literal n :
  0 <= n <= MaxUint64 -> naturalLiteral (FormatUint n) = Some n.
Proof.
  intros Hn. unfold naturalLiteral.
  destruct (FormatUint_nonempty n) as (c & s & E). rewrite E, <- E.
  unfold FormatUint. rewrite formatDigits_value; [reflexivity|].
  unfold MaxUint64 in Hn. change (10 ^ Z.of_nat 20) with 100000000000000000000. lia.
Qed.

Lemma isDigit_not_sign c :
  isDigit c = true -> Ascii.eqb c "-" = false /\ Ascii.eqb c "+" = false.
Proof.
  intros D. split.
  - destruct (Ascii.eqb_spec c "-") as [->|]; [discriminate|reflexivity].
  - destruct (Ascii.eqb_spec c "+") as [->|]; [discriminate|reflexivity].
Qed.

Lemma naturalLiteral_head c s n :
  naturalLiteral (String c s) = Some n -> isDigit c = true.
Proof. simpl. destruct (isDigit c); [reflexivity|discriminate]. Qed.

Lemma FormatInt_literal n :
  MinInt64 <= n <= MaxInt64 -> integerLiteral (FormatInt n) = Some n.
Proof.
  unfold MinInt64, MaxInt64, FormatInt. intros Hn.
  destruct (n <? 0) eqn:E.
  - unfold integerLiteral. rewrite Ascii.eqb_refl.
    rewrite FormatUint_literal by (unfold MaxUint64; lia).
    simpl. f_equal. lia.
  - pose proof (FormatUint_literal n ltac:(unfold MaxUint64; lia)) as L.
    destruct (FormatUint_nonempty n) as (c & s & Es). rewrite Es in *.
    destruct (isDigit_not_sign c (naturalLiteral_head _ _ _ L)) as [Hm Hp].
    unfold integerLiteral. rewrite Hm, Hp. exact L.
Qed.

(** [ParseInt] reads back what [FormatInt] writes for an [int64]. *)
Lemma ParseInt_FormatInt n :
  MinInt64 <= n <= MaxInt64 -> ParseInt (FormatInt n) = inl n.
Proof. intros Hn. apply ParseInt_spec. auto using FormatInt_literal. Qed.

(** [ParseUint] reads back what [FormatUint] writes for a [uint64]. *)
Lemma ParseUint_FormatUint n :
  0 <= n <= MaxUint64 -> ParseUint (FormatUint n) = inl n.
Proof.
  intros Hn. apply ParseUint_spec. split; [apply FormatUint_literal; assumption|lia].
Qed.

Lemma decimalValue_no_minus s : forall acc n,
  decimalValue s acc = Some n -> Contains s "-" = false.
Proof.
  induction s as [|c s IH]; simpl; intros acc n H; [reflexivity|].
  destruct (isDigit c) eqn:D; [|discriminate].
  destruct (isDigit_not_sign c D) as [-> _]. simpl. eauto.
Qed.

Lemma FormatUint_no_minus n :
  0 <= n <= MaxUint64 -> Contains (FormatUint n) "-" = false.
Proof.
  intros Hn. pose proof (FormatUint_literal n Hn) as L.
  unfold naturalLiteral in L. destruct (FormatUint n) eqn:E; [discriminate|].
  eapply decimalValue_no_minus. exact L.
Qed.

(** ** The tokenizer on [--name=value] tokens *)

Lemma Contains_append_sep name value :
  Contains (name +:+ String "=" value) "=" = true.
Proof.
  induction name as [|c name IH]; simpl.
  - reflexivity.
  - rewrite IH. apply orb_true_r.
Qed.

Lemma Contains_cons_false c s sep :
  Contains (String c s) sep = false ->
  HasPrefix (String c s) sep = false /\ Contains s sep = false.
Proof. simpl Contains. apply orb_false_iff. Qed.

Lemma cut_append_sep name value :
  Contains name "=" = false ->
  cut (name +:+ String "=" value) "=" = Some (name, value).
Proof.
  induction name as [|c name IH]; intros H.
  - reflexivity.
  - apply Contains_cons_false in H as [Hp Hc].
    change (String c name +:+ String "=" value)
      with (String c (name +:+ String "=" value)).
    cbn [cut].
    assert (HasPrefix (String c (name +:+ String "=" value)) "=" = false) as ->.
    { simpl in *. destruct (Ascii.eqb c "="); [discriminate|reflexivity]. }
    rewrite (IH Hc). reflexivity.
Qed.

(** On the tokens of [serialize], the loop inserts each field's name with
    the text of its value, in order, and does not panic. *)
Lemma mapArgLoop_serialize fields :
  Forall (fun f => Contains (Name f) "=" = false) fields ->
  forall (fuel i : nat) (res : gmap string string),
    (length fields - i <= fuel)%nat ->
    mapArgLoop fuel (serialize fields) i res
    = inl (serializedMap res (drop i fields)).
Proof.
  intros Hnames. induction fuel as [|fuel IH]; intros i res Hfuel.
  - rewrite drop_ge by lia. reflexivity.
  - cbn [mapArgLoop]. unfold serialize at 1. rewrite list_lookup_fmap.
    destruct (fields !! i) as [f|] eqn:E.
    + pose proof (Forall_lookup_1 _ _ _ _ Hnames E) as Hf. cbv beta in Hf.
      rewrite (drop_S _ _ _ E). cbn [fmap option_fmap option_map].
      unfold serializeField.
      change ("--" +:+ Name f +:+ "=" +:+ formatValue (Val f))
        with (String "-" (String "-" (Name f +:+ String "=" (formatValue (Val f))))).
      change (HasPrefix (String "-" (String "-" ?x)) "--") with true.
      cbv iota.
      change (TrimPrefix (String "-" (String "-" ?x)) "--") with x.
      rewrite Contains_append_sep. unfold SplitN2. rewrite cut_append_sep by assumption.
      cbn [lookup list_lookup]. rewrite IH by lia. reflexivity.
    + apply lookup_ge_None_1 in E. rewrite drop_ge by lia. reflexivity.
Qed.

Lemma mapArgSlice_serialize fields :
  Forall (fun f => Contains (Name f) "=" = false) fields ->
  mapArgSlice (serialize fields) = inl (serializedMap ∅ fields).
Proof.
  intros H. unfold mapArgSlice, serialize. rewrite length_fmap.
  fold (serialize fields). rewrite mapArgLoop_serialize by (assumption || lia).
  reflexivity.
Qed.

Lemma serializedMap_other fields : forall res name,
  name ∉ (Name <$> fields) ->
  serializedMap res fields !! name = res !! name.
Proof.
  induction fields as [|f fields IH]; intros res name H; [reflexivity|].
  unfold serializedMap in *. cbn [foldl]. rewrite IH.
  - apply lookup_insert_ne. intros <-. apply H. simpl. left.
  - intros Hin. apply H. simpl. right. assumption.
Qed.

Lemma serializedMap_lookup fields : forall res f,
  NoDup (Name <$> fields) -> f ∈ fields ->
  serializedMap res fields !! Name f = Some (formatValue (Val f)).
Proof.
  induction fields as [|g fields IH]; intros res f Hnd Hin.
  - inversion Hin.
  - simpl in Hnd. apply NoDup_cons in Hnd as [Hg Hnd].
    unfold serializedMap. cbn [foldl]. fold (serializedMap (<[Name g:=formatValue (Val g)]> res) fields).
    apply elem_of_cons in Hin as [->|Hin].
    + rewrite serializedMap_other by assumption. apply lookup_insert_eq.
    + apply IH; assumption.
Qed.

(** ** The round trip *)

(** A field that its pass assigned holds a value of its type, and is the
    field it was in all but its value. *)
Lemma bindField_wellTyped ParseFloat args f0 f :
  bindField ParseFloat args f0 = Next f ->
  wellTyped f0 = true ->
  roundTripKind (Kind f0) = true ->
  wellTyped f = true.
Proof.
  intros H W0 K.
  destruct (signedKind (Kind f0)) eqn:KS;
    [|destruct (unsignedKind (Kind f0)) eqn:KU].
  - rewrite bindField_signed in H by assumption.
    destruct (ParseInt _) as [n|]; [|discriminate].
    destruct (inRangeZ _ _ n) eqn:R; [|discriminate].
    apply set_shape in H as (_ & _ & Hk & Hv & _).
    unfold wellTyped. rewrite Hv, Hk, KS, R. reflexivity.
  - rewrite bindField_unsigned in H by assumption.
    destruct (Contains _ _); [discriminate|].
    destruct (ParseUint _) as [n|]; [|discriminate].
    destruct (inRangeZ _ _ n) eqn:R; [|discriminate].
    apply set_shape in H as (_ & _ & Hk & Hv & _).
    unfold wellTyped. rewrite Hv, Hk, KU, R. reflexivity.
  - unfold bindField in H.
    destruct (Kind f0) eqn:Ek; try discriminate.
    + destruct (args !! Name f0).
      * apply set_shape in H as (_ & _ & Hk & Hv & _).
        unfold wellTyped. rewrite Hv, Hk, Ek. reflexivity.
      * injection H as <-. assumption.
    + apply set_shape in H as (_ & _ & Hk & Hv & _).
      unfold wellTyped. rewrite Hv, Hk, Ek. reflexivity.
Qed.

(** Binding a field from the text of the value that a well-typed exported
    field [f] holds assigns that value: the result is [f]. *)
Lemma bindField_formatValue ParseFloat args f g :
  wellTyped f = true ->
  IsExported f = true ->
  roundTripKind (Kind f) = true ->
  args !! Name f = Some (formatValue (Val f)) ->
  Name g = Name f -> PkgPath g = PkgPath f -> Kind g = Kind f ->
  bindField ParseFloat args g = Next f.
Proof.
  intros W X K L Hn Hp Hk.
  assert (Hset : forall setter, set setter g (Val f) = Next f).
  { intros setter. unfold set, IsExported in *. rewrite Hp, X.
    destruct f, g; simpl in *; subst; reflexivity. }
  assert (Hraw : lookupArg args (Name g) = formatValue (Val f)).
  { unfold lookupArg. rewrite Hn, L. reflexivity. }
  unfold wellTyped in W.
  destruct (Val f) as [b|n|n|x|s|] eqn:Ev.
  - (* bool *)
    destruct (Kind f) eqn:Ek; try discriminate.
    unfold bindField. rewrite Hk, Hn, L. unfold SetBool.
    rewrite <- (Hset "SetBool"). destruct b; reflexivity.
  - (* signed *)
    apply andb_true_iff in W as [KS R].
    rewrite bindField_signed, Hraw, Hk by (rewrite Hk; assumption).
    simpl formatValue. rewrite ParseInt_FormatInt, R; [apply Hset|].
    unfold inRangeZ, minInt, maxInt, MinInt64, MaxInt64 in *.
    destruct (Kind f); try discriminate; simpl in R; lia.
  - (* unsigned *)
    apply andb_true_iff in W as [KU R].
    assert (R64 : 0 <= n <= MaxUint64).
    { unfold inRangeZ, maxUint, MaxUint64 in *.
      destruct (Kind f); try discriminate; simpl in R; lia. }
    rewrite bindField_unsigned, Hraw, Hk by (rewrite Hk; assumption).
    simpl formatValue.
    rewrite FormatUint_no_minus, ParseUint_FormatUint, R by assumption.
    apply Hset.
  - (* float *)
    destruct (Kind f); discriminate.
  - (* string *)
    destruct (Kind f) eqn:Ek; try discriminate.
    unfold bindField. rewrite Hk, Hraw. apply Hset.
  - rewrite K in W. discriminate.
Qed.

(** C9, as the code has it: a record bound without error from any
    arguments, all of whose fields are exported fields of kind string, bool
    or integer with names that are distinct and hold no [=], is bound to
    itself from its own [--name=value] tokens, whether they are parsed into
    the record itself or into the destination it was bound from. *)
Theorem Parse_serialize_round_trip
    (ParseFloat : string -> float64 + NumError)
    (fields0 fields : list Field) (config : option Config) (osArgs : list string) :
  Forall (fun f => wellTyped f = true) fields0 ->
  Forall (fun f => IsExported f = true) fields0 ->
  Forall (fun f => roundTripKind (Kind f) = true) fields0 ->
  Forall (fun f => Contains (Name f) "=" = false) fields0 ->
  NoDup (Name <$> fields0) ->
  Parse ParseFloat (structPointer fields0) config osArgs
  = (structPointer fields, Returned None) ->
  forall (config' : option Config) (prog : string),
    Parse ParseFloat (structPointer fields) config' (prog :: serialize fields)
    = (structPointer fields, Returned None) /\
    Parse ParseFloat (structPointer fields0) config' (prog :: serialize fields)
    = (structPointer fields, Returned None).
Proof.
  intros W0 X0 K0 N0 D0 H config' prog.
  (* the first call assigned every field *)
  unfold Parse, structPointer in H.
  destruct osArgs as [|prog0 rest]; [discriminate|].
  destruct (mapArgSlice rest) as [args0|p]; [|discriminate].
  destruct (bindFields ParseFloat args0 fields0) as [fields' o] eqn:E.
  injection H as -> ->.
  apply bindFields_done in E.
  pose proof (Forall2_length _ _ _ E) as Hlen.
  assert (Hshape : forall (i : nat) f0 f,
            fields0 !! i = Some f0 -> fields !! i = Some f ->
            Name f = Name f0 /\ PkgPath f = PkgPath f0 /\ Kind f = Kind f0 /\
            wellTyped f = true).
  { intros i f0 f H0 Hf.
    pose proof (Forall2_lookup_lr _ _ _ _ _ _ E H0 Hf) as B.
    destruct (bindField_shape _ _ _ _ B) as (? & ? & ?).
    repeat split; try assumption.
    eapply bindField_wellTyped; [exact B| |].
    - apply (Forall_lookup_1 _ _ _ _ W0 H0).
    - apply (Forall_lookup_1 _ _ _ _ K0 H0). }
  assert (Hnames : Name <$> fields = Name <$> fields0).
  { apply list_eq_same_length with (length fields); rewrite ?length_fmap; try lia.
    intros i x y _. rewrite !list_lookup_fmap.
    destruct (fields !! i) as [f|] eqn:Ef; [|discriminate].
    destruct (fields0 !! i) as [f0|] eqn:Ef0; [|discriminate].
    destruct (Hshape i f0 f Ef0 Ef) as (Hn & _). simpl. congruence. }
  assert (Heq : Forall (fun f => Contains (Name f) "=" = false) fields).
  { apply Forall_lookup_2. intros i f Hf.
    destruct (lookup_lt_is_Some_2 fields0 i) as [f0 Hf0].
    { apply lookup_lt_Some in Hf. lia. }
    destruct (Hshape i f0 f Hf0 Hf) as (-> & _).
    apply (Forall_lookup_1 _ _ _ _ N0 Hf0). }
  (* the second call finds every field in the map, with the text of its value *)
  pose proof (mapArgSlice_serialize fields Heq) as Hm.
  assert (Hbind : forall (i : nat) f g,
            fields !! i = Some f ->
            Name g = Name f -> PkgPath g = PkgPath f -> Kind g = Kind f ->
            bindField ParseFloat (serializedMap ∅ fields) g = Next f).
  { intros i f g Hf Hn Hp Hk.
    destruct (lookup_lt_is_Some_2 fields0 i) as [f0 Hf0].
    { apply lookup_lt_Some in Hf. lia. }
    destruct (Hshape i f0 f Hf0 Hf) as (Hn0 & Hp0 & Hk0 & W).
    apply bindField_formatValue; try assumption.
    - unfold IsExported. rewrite Hp0. apply (Forall_lookup_1 _ _ _ _ X0 Hf0).
    - rewrite Hk0. apply (Forall_lookup_1 _ _ _ _ K0 Hf0).
    - apply serializedMap_lookup; [rewrite Hnames; assumption|].
      apply list_elem_of_lookup. eauto. }
  split; rewrite (Parse_struct _ _ _ _ _ _ Hm).
  - rewrite (bindFields_all ParseFloat _ fields fields); [reflexivity|].
    apply Forall2_same_length_lookup. split; [reflexivity|].
    intros i g f Hg Hf. assert (g = f) as -> by congruence. eauto.
  - rewrite (bindFields_all ParseFloat _ fields0 fields); [reflexivity|].
    apply Forall2_same_length_lookup. split; [assumption|].
    intros i f0 f Hf0 Hf.
    destruct (Hshape i f0 f Hf0 Hf) as (Hn0 & Hp0 & Hk0 & _). eauto.
Qed.

(** [--Name=a=b --Verbose=TRUE --Level=-12 --Port 8080], written back as
    [--Name=a=b --Verbose=true --Level=-12 --Port=8080]. *)
Lemma Parse_serialize_round_trip_witness :
  serialize (serverFields "a=b" true (-12) 8080)
  = ["--Name=a=b"; "--Verbose=true"; "--Level=-12"; "--Port=8080"] /\
  Parse rejectFloats (structPointer (serverFields "" false 0 0)) None serverArgs
  = (structPointer (serverFields "a=b" true (-12) 8080), Returned None) /\
  forall (config' : option Config) (prog : string),
    Parse rejectFloats (structPointer (serverFields "a=b" true (-12) 8080)) config'
      (prog :: serialize (serverFields "a=b" true (-12) 8080))
    = (structPointer (serverFields "a=b" true (-12) 8080), Returned None) /\
    Parse rejectFloats (structPointer (serverFields "" false 0 0)) config'
      (prog :: serialize (serverFields "a=b" true (-12) 8080))
    = (structPointer (serverFields "a=b" true (-12) 8080), Returned None).
Proof.
  split; [vm_compute; reflexivity|]. split; [vm_compute; reflexivity|].
  apply (Parse_serialize_round_trip rejectFloats (serverFields "" false 0 0)
           (serverFields "a=b" true (-12) 8080) None serverArgs).
  - repeat constructor.
  - repeat constructor.
  - repeat constructor.
  - repeat constructor.
  - apply (bool_decide_unpack _). vm_compute. exact I.
  - vm_compute; reflexivity.
Defined.

(** C9, as it is stated, fails for a record with a field that is not
    exported: [--Name=z] binds without error a record whose bool field
    [verbose] has no flag and is stepped over, and the tokens of that
    record give it a flag, so that parsing them panics in [SetBool]. *)
Lemma Parse_round_trip_unexported_bool_panics :
  Parse rejectFloats (structPointer (hiddenFields true "")) None
    ["prog"; "--Name=z"]
  = (structPointer (hiddenFields true "z"), Returned None) /\
  Forall (fun f => roundTripKind (Kind f) = true) (hiddenFields true "z") /\
  serialize (hiddenFields true "z") = ["--verbose=true"; "--Name=z"] /\
  Parse rejectFloats (structPointer (hiddenFields true "z")) None
    ("prog" :: serialize (hiddenFields true "z"))
  = (structPointer (hiddenFields true "z"), Panicked (UnexportedField "SetBool")) /\
  Panicked (UnexportedField "SetBool") <> Returned None.
Proof.
  split; [vm_compute; reflexivity|]. split; [repeat constructor|].
  split; [vm_compute; reflexivity|]. split; [vm_compute; reflexivity|].
  discriminate.
Qed.

(** ** The loops end within their bounds *)

(** The loop of [mapArgSlice] gives one result for every bound of at least
    [len(args) - i] iterations: the bound of [mapArgSlice] cuts nothing off. *)
Lemma mapArgLoop_fuel (args : list string) :
  forall (fuel1 fuel2 i : nat) (res : gmap string string),
    (length args - i <= fuel1)%nat ->
    (length args - i <= fuel2)%nat ->
    mapArgLoop fuel1 args i res = mapArgLoop fuel2 args i res.
Proof.
  induction fuel1 as [|fuel1 IH]; intros fuel2 i res H1 H2.
  - destruct fuel2 as [|fuel2]; [reflexivity|]. cbn [mapArgLoop].
    rewrite lookup_ge_None_2 by lia. reflexivity.
  - destruct fuel2 as [|fuel2]; cbn [mapArgLoop].
    + rewrite lookup_ge_None_2 by lia. reflexivity.
    + destruct (args !! i) as [arg|] eqn:E; [|reflexivity].
      apply lookup_lt_Some in E.
      destruct (HasPrefix arg "--").
      * destruct (Contains (TrimPrefix arg "--") "=").
        -- destruct (SplitN2 (TrimPrefix arg "--") "=" !! 0%nat),
             (SplitN2 (TrimPrefix arg "--") "=" !! 1%nat);
             try reflexivity. apply IH; lia.
        -- destruct (args !! (i + 1)%nat) as [next|] eqn:En; [|reflexivity].
           apply lookup_lt_Some in En.
           destruct (HasPrefix next "-"); apply IH; lia.
      * destruct (HasPrefix arg "-"); apply IH; lia.
Qed.

Lemma runeSize_pos s : (1 <= runeSize s)%nat.
Proof.
  unfold runeSize.
  destruct (byteAt s 0); [|lia].
  destruct (utf8First _) as [[sz [lo hi]]|]; [|lia].
  repeat match goal with
         | |- context [if ?b then _ else _] => destruct b
         end; lia.
Qed.

Lemma sliceFrom_length n : forall s,
  String.length (sliceFrom n s) = (String.length s - n)%nat.
Proof.
  induction n as [|n IH]; intros [|c s]; simpl; try reflexivity; try lia.
  apply IH.
Qed.

(** [strings.Split(s, "")] is cut off by no bound of at least [len(s)]. *)
Lemma explode_fuel : forall (fuel1 fuel2 : nat) (s : string),
  (String.length s <= fuel1)%nat ->
  (String.length s <= fuel2)%nat ->
  explode fuel1 s = explode fuel2 s.
Proof.
  induction fuel1 as [|fuel1 IH]; intros fuel2 s H1 H2.
  - destruct s; [|simpl in H1; lia]. destruct fuel2; reflexivity.
  - destruct fuel2 as [|fuel2].
    + destruct s; [reflexivity | simpl in H2; lia].
    + cbn [explode]. destruct s as [|c s]; [reflexivity|].
      f_equal. apply IH; rewrite sliceFrom_length;
        pose proof (runeSize_pos (String c s)); simpl in *; lia.
Qed.

(** ** The examples of the specification *)

(** X1: [--X=5 --Y=hello] binds 5 and ["hello"]; [--N=3.14] into a string
    field binds the text unchanged; of [--X=1 --X=2] the last wins; a long
    flag before another flag gets the empty value, and one before a plain
    argument takes it. *)
Example Parse_examples (ParseFloat : string -> float64 + NumError) :
  Parse ParseFloat
    (structPointer [ exportedField "X" reflect.Int (IntValue 0);
                     exportedField "Y" reflect.String (StringValue "") ])
    None ["prog"; "--X=5"; "--Y=hello"]
  = (structPointer [ exportedField "X" reflect.Int (IntValue 5);
                     exportedField "Y" reflect.String (StringValue "hello") ],
     Returned None) /\
  Parse ParseFloat
    (structPointer [exportedField "N" reflect.String (StringValue "")])
    None ["prog"; "--N=3.14"]
  = (structPointer [exportedField "N" reflect.String (StringValue "3.14")],
     Returned None) /\
  Parse ParseFloat
    (structPointer [exportedField "X" reflect.Int (IntValue 0)])
    None ["prog"; "--X=1"; "--X=2"]
  = (structPointer [exportedField "X" reflect.Int (IntValue 2)], Returned None) /\
  Parse ParseFloat
    (structPointer [ exportedField "A" reflect.String (StringValue "a");
                     exportedField "B" reflect.String (StringValue "b");
                     exportedField "V" reflect.String (StringValue "v") ])
    None ["prog"; "--A"; "-V"; "--B"; "x"]
  = (structPointer [ exportedField "A" reflect.String (StringValue "");
                     exportedField "B" reflect.String (StringValue "x");
                     exportedField "V" reflect.String (StringValue "") ],
     Returned None).
Proof. repeat split; vm_compute; reflexivity. Qed.

(** ** Further properties of the tokenizer and the binder *)

(** X2: the tokenizer panics in one way only, on the lookahead one past the
    last argument. *)
Theorem mapArgSlice_only_panic (args : list string) (p : Panic) :
  mapArgSlice args = inr p ->
  p = IndexOutOfRange (length args) (length args).
Proof. unfold mapArgSlice. apply mapArgLoop_panic. Qed.

Lemma mapArgSlice_only_panic_witness :
  mapArgSlice ["-v"; "--out"] = inr (IndexOutOfRange 2 2) /\
  IndexOutOfRange 2 2
  = IndexOutOfRange (length ["-v"; "--out"]) (length ["-v"; "--out"]).
Proof.
  split; [reflexivity|].
  apply (mapArgSlice_only_panic ["-v"; "--out"] (IndexOutOfRange 2 2)).
  reflexivity.
Defined.

(** X3: no truncation at the kinds of a width of their own. A field of
    kind [int8] to [int64] or [uint8] to [uint64] that its pass assigned
    holds the very number that its text denotes, and that number is within
    the range of the kind. ([int] and [uint] are left out: their width is
    the target's, and the checks take them for 64 bits wide.) *)
Theorem bindField_no_truncation
    (ParseFloat : string -> float64 + NumError) (args : gmap string string)
    (f f' : Field) :
  signedKind (Kind f) || unsignedKind (Kind f) = true ->
  targetSized (Kind f) = false ->
  bindField ParseFloat args f = Next f' ->
  exists n : Z,
    (if signedKind (Kind f)
     then integerLiteral (lookupArg args (Name f)) = Some n /\
          Val f' = IntValue n /\ minInt (Kind f) <= n <= maxInt (Kind f)
     else naturalLiteral (lookupArg args (Name f)) = Some n /\
          Val f' = UintValue n /\ 0 <= n <= maxUint (Kind f)).
Proof.
  intros K _ H. destruct (signedKind (Kind f)) eqn:KS.
  - rewrite bindField_signed in H by assumption.
    destruct (ParseInt _) as [n|] eqn:E; [|discriminate].
    destruct (inRangeZ _ _ n) eqn:R; [|discriminate].
    apply set_shape in H as (_ & _ & _ & Hv & _).
    apply ParseInt_spec in E as [E _]. unfold inRangeZ in R.
    exists n. repeat split; try assumption; lia.
  - simpl in K. rewrite bindField_unsigned in H by assumption.
    destruct (Contains _ _); [discriminate|].
    destruct (ParseUint _) as [n|] eqn:E; [|discriminate].
    destruct (inRangeZ _ _ n) eqn:R; [|discriminate].
    apply set_shape in H as (_ & _ & _ & Hv & _).
    apply ParseUint_spec in E as [E _]. unfold inRangeZ in R.
    exists n. repeat split; try assumption; lia.
Qed.

Lemma bindField_no_truncation_witness :
  exists n : Z,
    integerLiteral "-128" = Some n /\
    IntValue (-128) = IntValue n /\ -128 <= n <= 127.
Proof.
  pose proof (bindField_no_truncation rejectFloats (<["Level" := "-128"]> ∅)
                (exportedField "Level" reflect.Int8 (IntValue 0))
                (exportedField "Level" reflect.Int8 (IntValue (-128)))) as H.
  vm_compute in H |- *. apply H; reflexivity.
Defined.

(** ** When the tokenizer panics, and how it composes *)

(** A panic of the loop means that the last argument is a bare long flag. *)
Lemma mapArgLoop_panic_last (args : list string) (p : Panic) :
  forall (fuel i : nat) (res : gmap string string),
    mapArgLoop fuel args i res = inr p ->
    exists tok, last args = Some tok /\ bareLongFlag tok = true.
Proof.
  induction fuel as [|fuel IH]; intros i res H; [discriminate|].
  cbn [mapArgLoop] in H.
  destruct (args !! i) as [arg|] eqn:E; [|discriminate].
  destruct (HasPrefix arg "--") eqn:L.
  - destruct (Contains (TrimPrefix arg "--") "=") eqn:C.
    + unfold SplitN2 in H.
      destruct (cut_Contains _ _ C) as (before & after & Ec).
      rewrite Ec in H. cbn [lookup list_lookup] in H. eauto.
    + destruct (args !! (i + 1)%nat) as [next|] eqn:En.
      * destruct (HasPrefix next "-"); eauto.
      * exists arg. split.
        -- rewrite last_lookup. apply lookup_ge_None_1 in En.
           pose proof (lookup_lt_Some _ _ _ E).
           replace (pred (length args)) with i by lia. exact E.
        -- unfold bareLongFlag. rewrite L, C. reflexivity.
  - destruct (HasPrefix arg "-"); eauto.
Qed.

Lemma bareLongFlag_parts tok :
  bareLongFlag tok = true ->
  HasPrefix tok "--" = true /\ Contains (TrimPrefix tok "--") "=" = false.
Proof.
  unfold bareLongFlag. intros H. apply andb_true_iff in H as [H1 H2].
  apply negb_true_iff in H2. auto.
Qed.

Lemma last_snoc_inv {A} (l : list A) (x : A) :
  last l = Some x -> exists pre, l = pre ++ [x].
Proof.
  intros H. destruct l as [|y l] using rev_ind; [discriminate|].
  rewrite last_snoc in H. injection H as ->. eauto.
Qed.

(** X4: [mapArgSlice] panics exactly when the last argument is a long flag
    without [=]; on no arguments it returns the empty map, and on every
    other argument list it returns a map. *)
Theorem mapArgSlice_panics_iff_bare_last (args : list string) :
  match last args with
  | None => mapArgSlice args = inl ∅
  | Some tok =>
      if bareLongFlag tok
      then mapArgSlice args = inr (IndexOutOfRange (length args) (length args))
      else exists m : gmap string string, mapArgSlice args = inl m
  end.
Proof.
  destruct (last args) as [tok|] eqn:E.
  - destruct (bareLongFlag tok) eqn:B.
    + destruct (last_snoc_inv _ _ E) as [pre ->].
      destruct (bareLongFlag_parts _ B) as [Hl Hc]. unfold mapArgSlice.
      destruct (mapArgLoop_trailing_long_flag pre tok Hl Hc
                  (length (pre ++ [tok])) 0 ∅) as [p Hp];
        [lia | rewrite length_app; simpl; lia |].
      rewrite Hp. f_equal. eapply mapArgLoop_panic. exact Hp.
    + destruct (mapArgSlice args) as [m|p] eqn:R; [eauto|].
      destruct (mapArgLoop_panic_last _ _ _ _ _ R) as (tok' & E' & B').
      congruence.
  - apply last_None in E. subst. reflexivity.
Qed.

(** The loop on [pre ++ rest], entered past [pre], is the loop on [rest]. *)
Lemma mapArgLoop_shift (pre rest : list string) :
  forall (fuel j : nat) (res : gmap string string),
    match mapArgLoop fuel rest j res with
    | inl m => mapArgLoop fuel (pre ++ rest) (length pre + j) res = inl m
    | inr _ => exists p, mapArgLoop fuel (pre ++ rest) (length pre + j) res = inr p
    end.
Proof.
  assert (L : forall j, (pre ++ rest) !! (length pre + j)%nat = rest !! j).
  { intros j. rewrite lookup_app_r by lia. f_equal. lia. }
  induction fuel as [|fuel IH]; intros j res; [reflexivity|].
  cbn [mapArgLoop]. rewrite L.
  replace (length pre + j + 1)%nat with (length pre + (j + 1))%nat by lia.
  rewrite L.
  destruct (rest !! j) as [arg|]; [|reflexivity].
  pose proof (fun r => IH (S j) r) as IH1.
  pose proof (fun r => IH (S (S j)) r) as IH2.
  replace (length pre + S j)%nat with (S (length pre + j)) in IH1 by lia.
  replace (length pre + S (S j))%nat with (S (S (length pre + j))) in IH2 by lia.
  destruct (HasPrefix arg "--").
  - destruct (Contains (TrimPrefix arg "--") "=").
    + destruct (SplitN2 (TrimPrefix arg "--") "=" !! 0%nat),
        (SplitN2 (TrimPrefix arg "--") "=" !! 1%nat); eauto; apply IH1.
    + destruct (rest !! (j + 1)%nat) as [next|]; [|eauto].
      destruct (HasPrefix next "-"); [apply IH1 | apply IH2].
  - destruct (HasPrefix arg "-"); apply IH1.
Qed.

(** Where the loop on [pre] returns a map, the loop on [pre ++ rest] gets
    to the end of [pre] with that map. *)
Lemma mapArgLoop_prefix (pre rest : list string) (m : gmap string string) :
  forall (fuel1 i : nat) (res : gmap string string) (fuel2 : nat),
    mapArgLoop fuel1 pre i res = inl m ->
    (i <= length pre)%nat ->
    (length pre - i <= fuel1)%nat ->
    (length (pre ++ rest) - i <= fuel2)%nat ->
    mapArgLoop fuel2 (pre ++ rest) i res
    = mapArgLoop (length rest) (pre ++ rest) (length pre) m.
Proof.
  assert (End : forall res fuel2,
            (length rest <= fuel2)%nat ->
            mapArgLoop fuel2 (pre ++ rest) (length pre) res
            = mapArgLoop (length rest) (pre ++ rest) (length pre) res).
  { intros res fuel2 H. apply mapArgLoop_fuel; rewrite length_app; lia. }
  induction fuel1 as [|fuel1 IH]; intros i res fuel2 H Hi H1 H2.
  - injection H as ->. replace i with (length pre) by lia.
    apply End. rewrite length_app in H2. lia.
  - cbn [mapArgLoop] in H. rewrite length_app in H2.
    destruct (pre !! i) as [arg|] eqn:E.
    + pose proof (lookup_lt_Some _ _ _ E) as Hlt.
      destruct fuel2 as [|fuel2]; [lia|]. cbn [mapArgLoop].
      rewrite lookup_app_l, E by assumption.
      assert (IH1 : forall r, mapArgLoop fuel1 pre (S i) r = inl m ->
                mapArgLoop fuel2 (pre ++ rest) (S i) r
                = mapArgLoop (length rest) (pre ++ rest) (length pre) m).
      { intros r Hr. apply IH; try assumption; try lia. rewrite length_app. lia. }
      destruct (HasPrefix arg "--").
      * destruct (Contains (TrimPrefix arg "--") "=").
        -- destruct (SplitN2 (TrimPrefix arg "--") "=" !! 0%nat),
             (SplitN2 (TrimPrefix arg "--") "=" !! 1%nat);
             try discriminate. auto.
        -- destruct (pre !! (i + 1)%nat) as [next|] eqn:En; [|discriminate].
           pose proof (lookup_lt_Some _ _ _ En) as Hlt'.
           rewrite lookup_app_l, En by assumption.
           destruct (HasPrefix next "-"); [auto|].
           apply IH; try assumption; try lia. rewrite length_app. lia.
      * destruct (HasPrefix arg "-"); auto.
    + injection H as ->. apply lookup_ge_None_1 in E.
      replace i with (length pre) by lia. apply End. lia.
Qed.

(** X5: the tokenizer composes. Where [pre] tokenizes to a map [m] on its
    own, tokenizing [pre ++ rest] is tokenizing [rest] on top of [m]: the
    same map when that succeeds, and a panic when that panics. *)
Theorem mapArgSlice_app (pre rest : list string) (m : gmap string string) :
  mapArgSlice pre = inl m ->
  match mapArgSliceFrom m rest with
  | inl m' => mapArgSlice (pre ++ rest) = inl m'
  | inr _ =>
      mapArgSlice (pre ++ rest)
      = inr (IndexOutOfRange (length (pre ++ rest)) (length (pre ++ rest)))
  end.
Proof.
  intros H. unfold mapArgSlice in *.
  rewrite (mapArgLoop_prefix pre rest m _ 0 ∅ _ H) by lia.
  pose proof (mapArgLoop_shift pre rest (length rest) 0 m) as S.
  rewrite Nat.add_0_r in S. unfold mapArgSliceFrom.
  destruct (mapArgLoop (length rest) rest 0 m) as [m'|q]; [assumption|].
  destruct S as [p Hp]. rewrite Hp. f_equal. eapply mapArgLoop_panic. exact Hp.
Qed.

Lemma mapArgSlice_app_witness :
  mapArgSlice (["-v"; "--Host=db"] ++ ["--Port"; "80"])
  = inl (<["Port" := "80"]> (<["Host" := "db"]> (<["v" := ""]> ∅))).
Proof.
  pose proof (mapArgSlice_app ["-v"; "--Host=db"] ["--Port"; "80"]
                (<["Host" := "db"]> (<["v" := ""]> ∅))) as H.
  vm_compute in H |- *. apply H. reflexivity.
Defined.

Lemma mapArgSlice_continue (pre rest : list string) (m : gmap string string) :
  mapArgSlice pre = inl m ->
  sameResult (mapArgSliceFrom m rest) (mapArgSlice (pre ++ rest)).
Proof.
  intros H. unfold mapArgSlice in *.
  rewrite (mapArgLoop_prefix pre rest m _ 0 ∅ _ H) by lia.
  pose proof (mapArgLoop_shift pre rest (length rest) 0 m) as S.
  rewrite Nat.add_0_r in S. unfold mapArgSliceFrom, sameResult.
  destruct (mapArgLoop (length rest) rest 0 m) as [m'|q]; [assumption|].
  destruct S as [p ->]. reflexivity.
Qed.

(** One iteration of the loop. *)
Lemma mapArgLoop_S fuel args i res :
  mapArgLoop (S fuel) args i res =
    match args !! i with
    | None => inl res
    | Some arg =>
        if HasPrefix arg "--" then
          if Contains (TrimPrefix arg "--") "=" then
            match SplitN2 (TrimPrefix arg "--") "=" !! 0%nat,
                  SplitN2 (TrimPrefix arg "--") "=" !! 1%nat with
            | Some key, Some value => mapArgLoop fuel args (S i) (<[key := value]> res)
            | None, _ =>
                inr (IndexOutOfRange 0 (length (SplitN2 (TrimPrefix arg "--") "=")))
            | _, None =>
                inr (IndexOutOfRange 1 (length (SplitN2 (TrimPrefix arg "--") "=")))
            end
          else
            match args !! (i + 1)%nat with
            | None => inr (IndexOutOfRange (i + 1) (length args))
            | Some next =>
                if HasPrefix next "-"
                then mapArgLoop fuel args (S i) (<[TrimPrefix arg "--" := ""]> res)
                else mapArgLoop fuel args (S (S i)) (<[TrimPrefix arg "--" := next]> res)
            end
        else if HasPrefix arg "-" then
          mapArgLoop fuel args (S i)
            (foldl (fun r flag => <[flag := ""]> r) res (SplitChars (sliceFrom 1 arg)))
        else mapArgLoop fuel args (S i) (<[arg := ""]> res)
    end.
Proof. reflexivity. Qed.

Lemma TrimPrefix_long k : TrimPrefix ("--" +:+ k) "--" = k.
Proof. reflexivity. Qed.

Lemma HasPrefix_long k : HasPrefix ("--" +:+ k) "--" = true.
Proof. reflexivity. Qed.

(** One [--k=v] token on top of [m]. *)
Lemma mapArgSliceFrom_assign m k v :
  Contains k "=" = false ->
  mapArgSliceFrom m ["--" +:+ k +:+ "=" +:+ v] = inl (<[k := v]> m).
Proof.
  intros Hk. unfold mapArgSliceFrom. cbn [length mapArgLoop lookup list_lookup].
  rewrite HasPrefix_long, TrimPrefix_long.
  change (k +:+ "=" +:+ v) with (k +:+ String "=" v).
  rewrite Contains_append_sep. unfold SplitN2. rewrite cut_append_sep by assumption.
  reflexivity.
Qed.

(** The two tokens [--k v] on top of [m], [v] not starting with a dash. *)
Lemma mapArgSliceFrom_spaced m k v :
  Contains k "=" = false -> HasPrefix v "-" = false ->
  mapArgSliceFrom m ["--" +:+ k; v] = inl (<[k := v]> m).
Proof.
  intros Hk Hv. unfold mapArgSliceFrom. cbn [length mapArgLoop lookup list_lookup].
  rewrite HasPrefix_long, TrimPrefix_long, Hk.
  cbn [Nat.add lookup list_lookup]. rewrite Hv. reflexivity.
Qed.

(** X6: the two spellings of a long flag with a value agree. After
    arguments that tokenize to [m], both [--k=v] and [--k v] (for a [v]
    that does not start with a dash) give [m] with [k] set to [v]: the
    later occurrence of a flag overwrites an earlier one, and every other
    flag is as it was. *)
Theorem mapArgSlice_long_flag_spellings
    (pre : list string) (m : gmap string string) (k v : string) :
  mapArgSlice pre = inl m ->
  Contains k "=" = false ->
  HasPrefix v "-" = false ->
  mapArgSlice (pre ++ ["--" +:+ k +:+ "=" +:+ v]) = inl (<[k := v]> m) /\
  mapArgSlice (pre ++ ["--" +:+ k; v]) = inl (<[k := v]> m).
Proof.
  intros H Hk Hv. split.
  - pose proof (mapArgSlice_continue pre ["--" +:+ k +:+ "=" +:+ v] m H) as S.
    rewrite mapArgSliceFrom_assign in S by assumption. exact S.
  - pose proof (mapArgSlice_continue pre ["--" +:+ k; v] m H) as S.
    rewrite mapArgSliceFrom_spaced in S by assumption. exact S.
Qed.

Lemma mapArgSlice_long_flag_spellings_witness :
  mapArgSlice (["--Port=80"; "-v"] ++ ["--Port=8080"])
  = inl (<["Port" := "8080"]> (<["v" := ""]> (<["Port" := "80"]> ∅))) /\
  mapArgSlice (["--Port=80"; "-v"] ++ ["--Port"; "8080"])
  = inl (<["Port" := "8080"]> (<["v" := ""]> (<["Port" := "80"]> ∅))).
Proof.
  apply (mapArgSlice_long_flag_spellings ["--Port=80"; "-v"]
           (<["v" := ""]> (<["Port" := "80"]> ∅)) "Port" "8080");
    vm_compute; reflexivity.
Defined.

(** X7: a value that starts with a dash is never taken by a long flag.
    After arguments that tokenize to [m], [--k] followed by such a [v] sets
    [k] to the empty string, and [v] and what follows are tokenized on top
    of that. *)
Theorem mapArgSlice_dash_value_not_taken
    (pre rest : list string) (m : gmap string string) (k v : string) :
  mapArgSlice pre = inl m ->
  Contains k "=" = false ->
  HasPrefix v "-" = true ->
  sameResult (mapArgSliceFrom (<[k := ""]> m) (v :: rest))
    (mapArgSlice (pre ++ ("--" +:+ k) :: v :: rest)).
Proof.
  intros H Hk Hv.
  pose proof (mapArgSlice_continue pre (("--" +:+ k) :: v :: rest) m H) as Hc.
  assert (E : mapArgSliceFrom m (("--" +:+ k) :: v :: rest)
              = mapArgLoop (length (v :: rest)) (("--" +:+ k) :: v :: rest)
                  1 (<[k := ""]> m)).
  { unfold mapArgSliceFrom.
    change (length (("--" +:+ k) :: v :: rest)) with (S (length (v :: rest))).
    rewrite mapArgLoop_S. cbn [lookup list_lookup].
    rewrite HasPrefix_long, TrimPrefix_long, Hk.
    cbn [Nat.add lookup list_lookup]. rewrite Hv. reflexivity. }
  pose proof (mapArgLoop_shift [("--" +:+ k)] (v :: rest) (length (v :: rest)) 0
                (<[k := ""]> m)) as T.
  change ([("--" +:+ k)] ++ v :: rest) with (("--" +:+ k) :: v :: rest) in T.
  change (length [("--" +:+ k)] + 0)%nat with 1%nat in T.
  rewrite <- E in T. unfold sameResult in *. fold (mapArgSliceFrom (<[k := ""]> m) (v :: rest)) in T.
  destruct (mapArgSliceFrom (<[k := ""]> m) (v :: rest)) as [m'|q].
  - rewrite T in Hc. exact Hc.
  - destruct T as [p Hp]. rewrite Hp in Hc. exact Hc.
Qed.

(** [--Level -5]: [Level] is empty and [-5] is read as the short flag [5]. *)
Lemma mapArgSlice_dash_value_not_taken_witness :
  mapArgSlice (["--Name=x"] ++ ["--Level"; "-5"])
  = inl (<["5" := ""]> (<["Level" := ""]> (<["Name" := "x"]> ∅))).
Proof.
  pose proof (mapArgSlice_dash_value_not_taken ["--Name=x"] []
                (<["Name" := "x"]> ∅) "Level" "-5") as H.
  vm_compute in H |- *. apply H; reflexivity.
Defined.

(** ** Short-flag clusters *)

Lemma runeSize_ASCII c s : isASCII c = true -> runeSize (String c s) = 1%nat.
Proof.
  unfold isASCII, runeSize, byteAt. cbn [String.get]. intros H.
  unfold utf8First. apply N.ltb_lt in H.
  rewrite (proj2 (N.ltb_lt _ 194)) by lia. reflexivity.
Qed.

(** On ASCII text, [strings.Split(s, "")] is the bytes of [s] one by one. *)
Lemma explode_ASCII : forall (fuel : nat) (s : string),
  (String.length s <= fuel)%nat ->
  Forall (fun c => isASCII c = true) (bytesOf s) ->
  explode fuel s = (fun c => String c "") <$> bytesOf s.
Proof.
  induction fuel as [|fuel IH]; intros s Hlen Hs.
  - destruct s; [reflexivity | simpl in Hlen; lia].
  - destruct s as [|c s]; [reflexivity|].
    cbn [bytesOf] in Hs. apply Forall_cons in Hs as [Hc Hs].
    cbn [explode]. rewrite runeSize_ASCII by assumption.
    cbn [sliceTo sliceFrom bytesOf fmap list_fmap]. f_equal.
    apply IH; [simpl in Hlen; lia | assumption].
Qed.

Lemma foldl_flags_lookup (keys : list string) : forall (m : gmap string string) key,
  (key ∈ keys -> foldl (fun r flag => <[flag := ""]> r) m keys !! key = Some "") /\
  (key ∉ keys -> foldl (fun r flag => <[flag := ""]> r) m keys !! key = m !! key).
Proof.
  induction keys as [|k keys IH]; intros m key; cbn [foldl].
  - split; [intros H; inversion H | reflexivity].
  - destruct (IH (<[k := ""]> m) key) as [IHin IHout]. split.
    + intros Hin. destruct (decide (key ∈ keys)) as [Hk|Hk]; [auto|].
      rewrite IHout by assumption.
      apply elem_of_cons in Hin as [->|Hin]; [apply lookup_insert_eq | contradiction].
    + intros Hout. apply not_elem_of_cons in Hout as [Hne Hout].
      rewrite IHout by assumption. apply lookup_insert_ne. congruence.
Qed.

(** X8: a cluster of ASCII short flags. After arguments that tokenize to
    [m], the token [-s] (with [s] ASCII and not itself starting with a
    dash) maps every character of [s] to the empty string and leaves every
    other key as it was; it never fails, and a lone [-] adds nothing. *)
Theorem mapArgSlice_short_cluster
    (pre : list string) (m : gmap string string) (s : string) :
  mapArgSlice pre = inl m ->
  HasPrefix s "-" = false ->
  Forall (fun c => isASCII c = true) (bytesOf s) ->
  exists m' : gmap string string,
    mapArgSlice (pre ++ [String "-" s]) = inl m' /\
    (forall c : ascii, c ∈ bytesOf s -> m' !! String c "" = Some "") /\
    (forall key : string,
       (forall c : ascii, c ∈ bytesOf s -> key <> String c "") ->
       m' !! key = m !! key).
Proof.
  intros H Hs Hascii.
  pose proof (mapArgSlice_continue pre [String "-" s] m H) as Hc.
  assert (E : mapArgSliceFrom m [String "-" s]
              = inl (foldl (fun r flag => <[flag := ""]> r) m
                       ((fun c => String c "") <$> bytesOf s))).
  { unfold mapArgSliceFrom. cbn [length]. rewrite mapArgLoop_S.
    cbn [lookup list_lookup].
    assert (HasPrefix (String "-" s) "--" = false) as ->.
    { simpl in *. exact Hs. }
    change (HasPrefix (String "-" s) "-") with true. cbv iota.
    cbn [sliceFrom mapArgLoop]. unfold SplitChars.
    rewrite explode_ASCII by (assumption || lia). reflexivity. }
  rewrite E in Hc. unfold sameResult in Hc.
  eexists. split; [exact Hc|]. split.
  - intros c Hin. apply foldl_flags_lookup. apply list_elem_of_fmap. eauto.
  - intros key Hkey. apply foldl_flags_lookup.
    intros Hin. apply list_elem_of_fmap in Hin as (c & -> & Hin).
    exact (Hkey c Hin eq_refl).
Qed.

Lemma mapArgSlice_short_cluster_witness :
  exists m' : gmap string string,
    mapArgSlice (["--Name=x"] ++ ["-lah"]) = inl m' /\
    (forall c : ascii, c ∈ bytesOf "lah" -> m' !! String c "" = Some "") /\
    (forall key : string,
       (forall c : ascii, c ∈ bytesOf "lah" -> key <> String c "") ->
       m' !! key = (<["Name" := "x"]> ∅ : gmap string string) !! key).
Proof.
  apply (mapArgSlice_short_cluster ["--Name=x"] (<["Name" := "x"]> ∅) "lah").
  - vm_compute; reflexivity.
  - reflexivity.
  - repeat constructor.
Defined.

(** ** What a call of [Parse] keeps, and calling it again *)

(** A field that its pass assigned is assigned to itself by the same pass. *)
Lemma bindField_again ParseFloat args f f' :
  bindField ParseFloat args f = Next f' ->
  bindField ParseFloat args f' = Next f'.
Proof.
  intros H. destruct (bindField_shape _ _ _ _ H) as (Hn & Hp & Hk).
  assert (Hset : forall setter v, set setter f v = Next f' ->
                                  set setter f' v = Next f').
  { intros setter v Hs. unfold set, IsExported in *. rewrite Hp.
    destruct (String.eqb (PkgPath f) ""); [|discriminate].
    injection Hs as <-. reflexivity. }
  unfold bindField, SetString, SetBool, SetInt, SetUint, SetFloat in *.
  rewrite Hn, Hk.
  destruct (Kind f);
    repeat match type of H with
           | match ?x with _ => _ end = _ => destruct x eqn:?
           | (if ?x then _ else _) = _ => destruct x eqn:?
           end;
    try discriminate; eauto.
Qed.

Lemma bindFields_again ParseFloat args fields : forall fields' o,
  bindFields ParseFloat args fields = (fields', o) ->
  bindFields ParseFloat args fields' = (fields', o).
Proof.
  induction fields as [|f rest IH]; simpl; intros fields' o H.
  - injection H as <- <-. reflexivity.
  - destruct (bindField ParseFloat args f) as [f'|o'] eqn:Ef.
    + destruct (bindFields ParseFloat args rest) as [rest' o''] eqn:E.
      injection H as <- <-. simpl.
      rewrite (bindField_again _ _ _ _ Ef), (IH _ _ eq_refl). reflexivity.
    + injection H as <- <-. simpl. rewrite Ef. reflexivity.
Qed.

(** X10: [Parse] is idempotent. Calling it again on the destination it
    left, with the same arguments, ends the same way and leaves the
    destination as it is, whether the first call returned nil, returned an
    error or panicked. *)
Theorem Parse_idempotent (ParseFloat : string -> float64 + NumError)
    (s : Any) (config config' : option Config) (osArgs : list string)
    (s' : Any) (o : Outcome) :
  Parse ParseFloat s config osArgs = (s', o) ->
  Parse ParseFloat s' config' osArgs = (s', o).
Proof.
  intros H. unfold Parse in H.
  destruct s as [k|[[fields|k]|]]; try (injection H as <- <-; reflexivity).
  destruct osArgs as [|prog rest]; [injection H as <- <-; reflexivity|].
  destruct (mapArgSlice rest) as [args|p] eqn:Hm.
  - destruct (bindFields ParseFloat args fields) as [fields' o'] eqn:E.
    injection H as <- <-. unfold Parse. rewrite Hm, (bindFields_again _ _ _ _ _ E).
    reflexivity.
  - injection H as <- <-. unfold Parse. rewrite Hm. reflexivity.
Qed.

Lemma Parse_idempotent_witness :
  Parse rejectFloats frameResult (Some mkConfig) frameArgs
  = (frameResult, Returned (Some (Overflow 300 reflect.Int8))).
Proof.
  apply (Parse_idempotent rejectFloats (structPointer frameFields) None
           (Some mkConfig) frameArgs).
  vm_compute; reflexivity.
Defined.

(** ** Flags that name no field *)

Lemma bindField_ext ParseFloat (m1 m2 : gmap string string) f :
  m1 !! Name f = m2 !! Name f ->
  bindField ParseFloat m1 f = bindField ParseFloat m2 f.
Proof. intros H. unfold bindField, lookupArg. rewrite H. reflexivity. Qed.

Lemma bindFields_ext ParseFloat (m1 m2 : gmap string string) fields :
  Forall (fun f => m1 !! Name f = m2 !! Name f) fields ->
  bindFields ParseFloat m1 fields = bindFields ParseFloat m2 fields.
Proof.
  induction 1 as [|f rest Hf _ IH]; simpl; [reflexivity|].
  rewrite (bindField_ext _ _ _ _ Hf), IH. reflexivity.
Qed.

(** X11: [Parse] reads the arguments through the names of the fields only.
    Two argument lists whose maps hold the same entry, or none, under the
    name of every field give the same destination and the same outcome. *)
Theorem Parse_reads_field_names_only (ParseFloat : string -> float64 + NumError)
    (fields : list Field) (config : option Config) (prog1 prog2 : string)
    (rest1 rest2 : list string) (m1 m2 : gmap string string) :
  mapArgSlice rest1 = inl m1 ->
  mapArgSlice rest2 = inl m2 ->
  Forall (fun f => m1 !! Name f = m2 !! Name f) fields ->
  Parse ParseFloat (structPointer fields) config (prog1 :: rest1)
  = Parse ParseFloat (structPointer fields) config (prog2 :: rest2).
Proof.
  intros H1 H2 Hagree.
  rewrite (Parse_struct _ _ _ _ _ _ H1), (Parse_struct _ _ _ _ _ _ H2).
  rewrite (bindFields_ext _ _ _ _ Hagree). reflexivity.
Qed.

(** The order of the flags, a junk token and a short flag make no
    difference to [Host], [Port] and [User]. *)
Lemma Parse_reads_field_names_only_witness :
  Parse rejectFloats (structPointer frameFields) None
    ["a"; "--Host=db"; "--Port=80"; "--User=root"]
  = Parse rejectFloats (structPointer frameFields) None
      ["b"; "junk"; "--User"; "root"; "-x"; "--Port=80"; "--Host=db"].
Proof.
  apply (Parse_reads_field_names_only rejectFloats frameFields None "a" "b"
           ["--Host=db"; "--Port=80"; "--User=root"]
           ["junk"; "--User"; "root"; "-x"; "--Port=80"; "--Host=db"]
           (<["User" := "root"]> (<["Port" := "80"]> (<["Host" := "db"]> ∅)))
           (<["Host" := "db"]> (<["Port" := "80"]> (<["x" := ""]>
              (<["User" := "root"]> (<["junk" := ""]> ∅)))))).
  - vm_compute; reflexivity.
  - vm_compute; reflexivity.
  - repeat constructor.
Defined.

(** X12: a flag that names no field is ignored. Appending [--k=v], for a
    [k] that is the name of no field, to arguments that tokenize changes
    neither the destination nor the outcome. *)
Theorem Parse_ignores_unknown_flag (ParseFloat : string -> float64 + NumError)
    (fields : list Field) (config : option Config) (prog : string)
    (rest : list string) (m : gmap string string) (k v : string) :
  mapArgSlice rest = inl m ->
  Contains k "=" = false ->
  k ∉ (Name <$> fields) ->
  Parse ParseFloat (structPointer fields) config
    (prog :: rest ++ ["--" +:+ k +:+ "=" +:+ v])
  = Parse ParseFloat (structPointer fields) config (prog :: rest).
Proof.
  intros Hm Hk Hnot.
  pose proof (mapArgSlice_continue rest ["--" +:+ k +:+ "=" +:+ v] m Hm) as Hc.
  rewrite mapArgSliceFrom_assign in Hc by assumption. unfold sameResult in Hc.
  rewrite (Parse_struct _ _ _ _ _ _ Hm), (Parse_struct _ _ _ _ _ _ Hc).
  rewrite (bindFields_ext ParseFloat (<[k := v]> m) m); [reflexivity|].
  apply Forall_forall. intros f Hf. apply lookup_insert_ne.
  intros ->. apply Hnot. apply list_elem_of_fmap. eauto.
Qed.

Lemma Parse_ignores_unknown_flag_witness :
  Parse rejectFloats (structPointer frameFields) None
    ("prog" :: ["--Host=db"; "--Port=80"] ++ ["--Colour=red"])
  = Parse rejectFloats (structPointer frameFields) None
      ("prog" :: ["--Host=db"; "--Port=80"]).
Proof.
  apply (Parse_ignores_unknown_flag rejectFloats frameFields None "prog"
           ["--Host=db"; "--Port=80"]
           (<["Port" := "80"]> (<["Host" := "db"]> ∅)) "Colour" "red").
  - vm_compute; reflexivity.
  - reflexivity.
  - apply (bool_decide_unpack _). vm_compute. exact I.
Defined.

(** ** Integer flags are required *)

(** X13: an integer field needs its flag. When the loop of [Parse] reaches
    a field of a signed or unsigned integer kind whose name is not in the
    map, or is there with the empty value, the call returns the syntax
    error of [ParseInt] or [ParseUint]; the field and the fields after it
    are as they were. *)
Theorem Parse_missing_integer_flag (ParseFloat : string -> float64 + NumError)
    (config : option Config) (prog : string) (rest : list string)
    (args : gmap string string) (pre pre' : list Field) (f : Field)
    (post : list Field) :
  mapArgSlice rest = inl args ->
  bindFields ParseFloat args pre = (pre', Returned None) ->
  signedKind (Kind f) || unsignedKind (Kind f) = true ->
  lookupArg args (Name f) = "" ->
  Parse ParseFloat (structPointer (pre ++ f :: post)) config (prog :: rest)
  = (structPointer (pre' ++ f :: post),
     Returned (Some (StrconvError
                       (if signedKind (Kind f) then "ParseInt" else "ParseUint")
                       ErrSyntax))).
Proof.
  intros Hm Hpre K Hraw.
  apply Parse_stops_at with (args := args); try assumption.
  destruct (signedKind (Kind f)) eqn:KS.
  - rewrite bindField_signed, Hraw by assumption. reflexivity.
  - simpl in K. rewrite bindField_unsigned, Hraw by assumption. reflexivity.
Qed.

(** [--Host=db] alone against [Host string; Port int8; User string]. *)
Lemma Parse_missing_integer_flag_witness :
  Parse rejectFloats (structPointer frameFields) None ["prog"; "--Host=db"]
  = (frameResult, Returned (Some (StrconvError "ParseInt" ErrSyntax))).
Proof.
  pose proof (Parse_missing_integer_flag rejectFloats None "prog" ["--Host=db"]
                (<["Host" := "db"]> ∅)
                [exportedField "Host" reflect.String (StringValue "")]
                [exportedField "Host" reflect.String (StringValue "db")]
                (exportedField "Port" reflect.Int8 (IntValue 0))
                [exportedField "User" reflect.String (StringValue "nobody")]) as H.
  vm_compute in H |- *. apply H; reflexivity.
Defined.

(** ** Fields of other kinds *)

(** X14: a field of a kind outside string, bool, the integers and the
    floats stops the call. When the loop of [Parse] reaches such a field,
    the call returns the unsupported-type error naming the kind and the
    field, whatever the arguments are. *)
Theorem Parse_unsupported_kind (ParseFloat : string -> float64 + NumError)
    (config : option Config) (prog : string) (rest : list string)
    (args : gmap string string) (pre pre' : list Field) (f : Field)
    (post : list Field) :
  mapArgSlice rest = inl args ->
  bindFields ParseFloat args pre = (pre', Returned None) ->
  supportedKind (Kind f) = false ->
  Parse ParseFloat (structPointer (pre ++ f :: post)) config (prog :: rest)
  = (structPointer (pre' ++ f :: post),
     Returned (Some (Unsupported (Kind f) (Name f)))).
Proof.
  intros Hm Hpre K.
  apply Parse_stops_at with (args := args); try assumption.
  unfold bindField. destruct (Kind f); try discriminate; reflexivity.
Qed.

Lemma Parse_unsupported_kind_witness :
  Parse rejectFloats
    (structPointer [ exportedField "Host" reflect.String (StringValue "");
                     exportedField "Tags" reflect.Slice OpaqueValue ])
    None ["prog"; "--Host=db"; "--Tags=a"]
  = (structPointer [ exportedField "Host" reflect.String (StringValue "db");
                     exportedField "Tags" reflect.Slice OpaqueValue ],
     Returned (Some (Unsupported reflect.Slice "Tags"))).
Proof.
  pose proof (Parse_unsupported_kind rejectFloats None "prog"
                ["--Host=db"; "--Tags=a"]
                (<["Tags" := "a"]> (<["Host" := "db"]> ∅))
                [exportedField "Host" reflect.String (StringValue "")]
                [exportedField "Host" reflect.String (StringValue "db")]
                (exportedField "Tags" reflect.Slice OpaqueValue) []) as H.
  vm_compute in H |- *. apply H; reflexivity.
Defined.

(** ** The range checks and the guard, in full *)

(** X15: the underflow guard rejects nothing that [ParseUint] would
    accept: a text that holds a [-] is no unsigned literal, so without the
    guard the call would still fail, with the error of [ParseUint]. *)
Theorem underflow_guard_rejects_no_literal (raw : string) :
  Contains raw "-" = true ->
  exists err : NumError, ParseUint raw = inr err.
Proof.
  intros H. destruct (ParseUint raw) as [n|err] eqn:E; [|eauto].
  apply ParseUint_spec in E as [E _]. unfold naturalLiteral in E.
  destruct raw as [|c raw]; [discriminate|].
  apply decimalValue_no_minus in E. congruence.
Qed.

Lemma underflow_guard_rejects_no_literal_witness :
  exists err : NumError, ParseUint "-5" = inr err.
Proof. apply (underflow_guard_rejects_no_literal "-5"). reflexivity. Defined.

(** X16: the two integer checks in full. [checkIntOverflow] answers true
    exactly for a signed kind and a number within the two's complement
    range of its width, [checkUIntOverflow] exactly for an unsigned kind
    and a number from 0 to the maximum of its width; for a kind of the
    other family, or any other kind, both answer false. *)
Theorem integer_checks_characterised (n : Z) (k : reflect.Kind) :
  (checkIntOverflow n k = true <->
   signedKind k = true /\ minInt k <= n <= maxInt k) /\
  (checkUIntOverflow n k = true <->
   unsignedKind k = true /\ 0 <= n <= maxUint k).
Proof.
  unfold minInt, maxInt, maxUint.
  split; destruct k; simpl;
    unfold MaxInt8, MinInt8, MaxInt16, MinInt16, MaxInt32, MinInt32,
      MaxInt64, MinInt64, MaxUint8, MaxUint16, MaxUint32, MaxUint64;
    split; try (intros [? ?]); try discriminate; try lia; try (split; lia).
Qed.

(** ** Floats that are no numbers *)

(** X17: the float check lets NaN through and stops the infinities. When
    the loop of [Parse] reaches an exported float field whose text
    [ParseFloat] reads as NaN, neither comparison of [checkFloatOverflow]
    holds, NaN is assigned and the loop goes on; when the text reads as an
    infinity of either sign, the call returns the overflow error. *)
Theorem Parse_float_nan_and_infinities
    (ParseFloat : string -> float64 + NumError) (config : option Config)
    (prog : string) (rest : list string) (args : gmap string string)
    (pre pre' : list Field) (f : Field) (post : list Field) (x : float64) :
  mapArgSlice rest = inl args ->
  bindFields ParseFloat args pre = (pre', Returned None) ->
  floatKind (Kind f) = true ->
  IsExported f = true ->
  ParseFloat (lookupArg args (Name f)) = inl x ->
  match x with
  | S754_nan =>
      Parse ParseFloat (structPointer (pre ++ f :: post)) config (prog :: rest)
      = let '(post', o) := bindFields ParseFloat args post in
        (structPointer (pre' ++ withVal f (FloatValue S754_nan) :: post'), o)
  | S754_infinity _ =>
      Parse ParseFloat (structPointer (pre ++ f :: post)) config (prog :: rest)
      = (structPointer (pre' ++ f :: post),
         Returned (Some (OverflowFloat x (Kind f))))
  | _ => True
  end.
Proof.
  intros Hm Hpre K X E.
  rewrite (Parse_struct _ _ _ _ _ _ Hm), (bindFields_at _ _ _ _ _ _ Hpre).
  assert (B : bindField ParseFloat args f =
              if negb (checkFloatOverflow x (Kind f))
              then fail (OverflowFloat x (Kind f)) else SetFloat f x).
  { unfold bindField. destruct (Kind f); try discriminate; rewrite E; reflexivity. }
  rewrite B. unfold SetFloat, set. rewrite X.
  destruct x as [sz|si| |s m e]; [exact I| | |exact I].
  - destruct (Kind f); try discriminate; destruct si; reflexivity.
  - destruct (Kind f); try discriminate; simpl;
      destruct (bindFields ParseFloat args post); reflexivity.
Qed.

(** A [ParseFloat] that reads ["NaN"] and ["+Inf"], and nothing else. *)
Lemma Parse_float_nan_and_infinities_witness :
  let parseSpecial (s : string) : float64 + NumError :=
    if String.eqb s "NaN" then inl S754_nan
    else if String.eqb s "+Inf" then inl (S754_infinity false)
    else inr ErrSyntax in
  Parse parseSpecial
    (structPointer [exportedField "X" reflect.Float64 (FloatValue (f64 1 0))])
    None ["prog"; "--X=NaN"]
  = (structPointer [exportedField "X" reflect.Float64 (FloatValue S754_nan)],
     Returned None) /\
  Parse parseSpecial
    (structPointer [exportedField "X" reflect.Float32 (FloatValue (f64 1 0))])
    None ["prog"; "--X=+Inf"]
  = (structPointer [exportedField "X" reflect.Float32 (FloatValue (f64 1 0))],
     Returned (Some (OverflowFloat (S754_infinity false) reflect.Float32))).
Proof.
  intros parseSpecial. split.
  - pose proof (Parse_float_nan_and_infinities parseSpecial None "prog" ["--X=NaN"]
                  (<["X" := "NaN"]> ∅) [] []
                  (exportedField "X" reflect.Float64 (FloatValue (f64 1 0))) []
                  S754_nan) as H.
    vm_compute in H |- *. apply H; reflexivity.
  - pose proof (Parse_float_nan_and_infinities parseSpecial None "prog" ["--X=+Inf"]
                  (<["X" := "+Inf"]> ∅) [] []
                  (exportedField "X" reflect.Float32 (FloatValue (f64 1 0))) []
                  (S754_infinity false)) as H.
    vm_compute in H |- *. apply H; reflexivity.
Defined.

(** ** When [Parse] cannot panic *)

Lemma bindField_panic_unexported ParseFloat args f p :
  bindField ParseFloat args f = Stop (Panicked p) -> IsExported f = false.
Proof.
  unfold bindField, SetString, SetBool, SetInt, SetUint, SetFloat, set, fail.
  intros H. destruct (IsExported f); [|reflexivity].
  repeat match type of H with
         | match ?x with _ => _ end = _ => destruct x eqn:?
         | (if ?x then _ else _) = _ => destruct x eqn:?
         end; discriminate.
Qed.

(** X18: with exported fields only, [Parse] panics on the arguments alone.
    For a struct whose fields are all exported, and arguments after the
    program name whose last token is not a long flag without [=], the call
    returns: a nil error or an error, never a panic. *)
Theorem Parse_returns_on_exported_fields
    (ParseFloat : string -> float64 + NumError) (fields : list Field)
    (config : option Config) (prog : string) (rest : list string) :
  Forall (fun f => IsExported f = true) fields ->
  match last rest with
  | Some tok => bareLongFlag tok = false
  | None => True
  end ->
  exists (s' : Any) (err : option Error),
    Parse ParseFloat (structPointer fields) config (prog :: rest)
    = (s', Returned err).
Proof.
  intros X L. unfold Parse, structPointer.
  destruct (mapArgSlice rest) as [args|p] eqn:Hm.
  - destruct (bindFields ParseFloat args fields) as [fields' o] eqn:E.
    destruct o as [err|p]; [eauto|]. exfalso.
    destruct (bindFields_stop _ _ _ _ _ E) as (i & f & Hi & Hf & _);
      [discriminate|].
    apply bindField_panic_unexported in Hf.
    pose proof (Forall_lookup_1 _ _ _ _ X Hi) as Hx. cbv beta in Hx. congruence.
  - exfalso. destruct (mapArgLoop_panic_last _ _ _ _ _ Hm) as (tok & E & B).
    rewrite E in L. congruence.
Qed.

Lemma Parse_returns_on_exported_fields_witness :
  exists (s' : Any) (err : option Error),
    Parse rejectFloats (structPointer frameFields) None
      ("prog" :: ["--Host"; "--Port=x"; "-v"])
    = (s', Returned err).
Proof.
  apply (Parse_returns_on_exported_fields rejectFloats frameFields None "prog"
           ["--Host"; "--Port=x"; "-v"]).
  - repeat constructor.
  - reflexivity.
Defined.

(** X20: strings and bools always bind. For a struct whose fields are all
    exported fields of kind string or bool, and arguments that tokenize,
    the call returns nil: no text is refused for such a field. *)
Theorem Parse_strings_and_bools_succeed
    (ParseFloat : string -> float64 + NumError) (fields : list Field)
    (config : option Config) (prog : string) (rest : list string)
    (args : gmap string string) :
  Forall (fun f => IsExported f = true /\
                   (Kind f = reflect.String \/ Kind f = reflect.Bool)) fields ->
  mapArgSlice rest = inl args ->
  exists fields' : list Field,
    Parse ParseFloat (structPointer fields) config (prog :: rest)
    = (structPointer fields', Returned None).
Proof.
  intros H Hm. rewrite (Parse_struct _ _ _ _ _ _ Hm).
  assert (G : exists fields',
            bindFields ParseFloat args fields = (fields', Returned None)).
  { induction H as [|f rest' [X K] _ [rest'' IH]]; [simpl; eauto|].
    simpl. rewrite IH.
    assert (exists f', bindField ParseFloat args f = Next f') as [f' ->]; [|eauto].
    unfold bindField, SetString, SetBool, set. rewrite X.
    destruct K as [-> | ->]; [eauto|]. destruct (args !! Name f); eauto. }
  destruct G as [fields' ->]. eauto.
Qed.

Lemma Parse_strings_and_bools_succeed_witness :
  exists fields' : list Field,
    Parse rejectFloats (structPointer (verboseFields "old" true)) None
      ("prog" :: ["--Verbose=no"; "-x"; "junk"])
    = (structPointer fields', Returned None).
Proof.
  apply (Parse_strings_and_bools_succeed rejectFloats (verboseFields "old" true)
           None "prog" ["--Verbose=no"; "-x"; "junk"]
           (<["junk" := ""]> (<["x" := ""]> (<["Verbose" := "no"]> ∅)))).
  - repeat (constructor;
            [split; [reflexivity | (left; reflexivity) || (right; reflexivity)]|]).
    constructor.
  - vm_compute; reflexivity.
Defined.

(** ** What a nil error means *)

Lemma field_eta f f' v :
  sameShape f f' -> Val f' = v -> f' = withVal f v.
Proof.
  unfold sameShape. destruct f, f'; simpl. intros (-> & -> & ->) ->. reflexivity.
Qed.

Lemma set_Next_iff setter f v f' :
  set setter f v = Next f' <->
  sameShape f f' /\ IsExported f = true /\ Val f' = v.
Proof.
  split.
  - intros H. apply set_shape in H. unfold sameShape. tauto.
  - intros (Hs & X & V). unfold set. rewrite X. f_equal. symmetry.
    apply field_eta; assumption.
Qed.

(** A pass assigns [f'] to [f] exactly when [f'] is [f] bound from the map. *)
Lemma bindField_Next_iff ParseFloat args f f' :
  bindField ParseFloat args f = Next f' <-> boundFrom ParseFloat args f f'.
Proof.
  unfold boundFrom. cbv zeta.
  destruct (signedKind (Kind f)) eqn:KS;
    [|destruct (unsignedKind (Kind f)) eqn:KU].
  - (* signed *)
    rewrite bindField_signed by assumption.
    assert (G : (match ParseInt (lookupArg args (Name f)) with
                 | inl n =>
                     if inRangeZ (minInt (Kind f)) (maxInt (Kind f)) n
                     then set "SetInt" f (IntValue n)
                     else fail (Overflow n (Kind f))
                 | inr err => fail (StrconvError "ParseInt" err)
                 end = Next f') <->
                (sameShape f f' /\ IsExported f = true /\
                 exists n, integerLiteral (lookupArg args (Name f)) = Some n /\
                           minInt (Kind f) <= n <= maxInt (Kind f) /\
                           Val f' = IntValue n)).
    { split.
      - destruct (ParseInt _) as [n|] eqn:E; [|discriminate].
        destruct (inRangeZ _ _ n) eqn:R; [|discriminate].
        intros H. apply set_Next_iff in H as (Hs & X & V).
        apply ParseInt_spec in E as [E _]. unfold inRangeZ in R.
        split; [assumption|]. split; [assumption|].
        exists n. split; [assumption|]. split; [lia|assumption].
      - intros (Hs & X & n & L & R & V).
        assert (E : ParseInt (lookupArg args (Name f)) = inl n).
        { apply ParseInt_spec. split; [assumption|].
          unfold minInt, maxInt, MinInt64, MaxInt64 in *.
          destruct (Kind f); try discriminate; simpl in R; lia. }
        rewrite E. unfold inRangeZ.
        rewrite (proj2 (Z.leb_le _ _)), (proj2 (Z.leb_le _ _)) by lia.
        apply set_Next_iff. auto. }
    rewrite G. destruct (Kind f); try discriminate; simpl; tauto.
  - (* unsigned *)
    rewrite bindField_unsigned by assumption.
    assert (G : ((if Contains (lookupArg args (Name f)) "-"
                  then fail (Underflow (lookupArg args (Name f)) (Kind f))
                  else
                    match ParseUint (lookupArg args (Name f)) with
                    | inl n =>
                        if inRangeZ 0 (maxUint (Kind f)) n
                        then set "SetUint" f (UintValue n)
                        else fail (Overflow n (Kind f))
                    | inr err => fail (StrconvError "ParseUint" err)
                    end) = Next f') <->
                (sameShape f f' /\ IsExported f = true /\
                 exists n, naturalLiteral (lookupArg args (Name f)) = Some n /\
                           0 <= n <= maxUint (Kind f) /\ Val f' = UintValue n)).
    { split.
      - destruct (Contains _ _); [discriminate|].
        destruct (ParseUint _) as [n|] eqn:E; [|discriminate].
        destruct (inRangeZ _ _ n) eqn:R; [|discriminate].
        intros H. apply set_Next_iff in H as (Hs & X & V).
        apply ParseUint_spec in E as [E _]. unfold inRangeZ in R.
        split; [assumption|]. split; [assumption|].
        exists n. split; [assumption|]. split; [lia|assumption].
      - intros (Hs & X & n & L & R & V).
        assert (M : Contains (lookupArg args (Name f)) "-" = false).
        { unfold naturalLiteral in L.
          destruct (lookupArg args (Name f)); [discriminate|].
          eapply decimalValue_no_minus. exact L. }
        assert (E : ParseUint (lookupArg args (Name f)) = inl n).
        { apply ParseUint_spec. split; [assumption|].
          unfold maxUint, MaxUint64 in *.
          destruct (Kind f); try discriminate; simpl in R; lia. }
        rewrite M, E. unfold inRangeZ.
        rewrite (proj2 (Z.leb_le _ _)), (proj2 (Z.leb_le _ _)) by lia.
        apply set_Next_iff. auto. }
    rewrite G. destruct (Kind f); try discriminate; simpl; tauto.
  - (* string, bool, float and the rest *)
    unfold bindField, SetString, SetBool, SetFloat, fail.
    destruct (Kind f) eqn:K; try discriminate; simpl;
      try (split; [discriminate | tauto]).
    + (* bool *)
      destruct (args !! Name f) as [value|].
      * rewrite set_Next_iff. tauto.
      * split.
        -- intros [= <-]. repeat split.
        -- intros (Hs & V). f_equal. rewrite (field_eta f f' (Val f) Hs V).
           destruct f; reflexivity.
    + (* float32 *)
      split.
      * destruct (ParseFloat _) as [x|] eqn:E; [|discriminate].
        destruct (negb (_ || _)) eqn:C; [|discriminate].
        simpl. rewrite set_Next_iff. intros (Hs & X & V). eauto 10.
      * intros (Hs & X & x & E & C & V). rewrite E, C. simpl.
        apply set_Next_iff. auto.
    + (* float64 *)
      split.
      * destruct (ParseFloat _) as [x|] eqn:E; [|discriminate].
        destruct (negb (_ || _)) eqn:C; [|discriminate].
        simpl. rewrite set_Next_iff. intros (Hs & X & V). eauto 10.
      * intros (Hs & X & x & E & C & V). rewrite E, C. simpl.
        apply set_Next_iff. auto.
    + (* string *)
      rewrite set_Next_iff. tauto.
Qed.

(** X19: what a nil error means, for a struct without fields of kind
    [int] or [uint] (whose width is the target's). A call of [Parse] on
    such a struct returns nil leaving the fields [fields'] exactly when the
    arguments tokenize to a map from which every field is bound, in order:
    a string holds the text under its name (the empty string when there is
    none), a bool holds whether its text is a spelling of [true] or is as
    it was when there is none, an integer holds the number its text
    denotes, within the range of its kind, a float holds what [ParseFloat]
    read and the check accepted, every field that was assigned is exported,
    and there is no field of another kind. *)
Theorem Parse_nil_iff_all_bound (ParseFloat : string -> float64 + NumError)
    (fields fields' : list Field) (config : option Config) (prog : string)
    (rest : list string) :
  Forall (fun f => targetSized (Kind f) = false) fields ->
  Parse ParseFloat (structPointer fields) config (prog :: rest)
  = (structPointer fields', Returned None)
  <->
  exists args : gmap string string,
    mapArgSlice rest = inl args /\
    Forall2 (boundFrom ParseFloat args) fields fields'.
Proof.
  intros _. unfold Parse, structPointer. split.
  - destruct (mapArgSlice rest) as [args|p]; [|discriminate].
    destruct (bindFields ParseFloat args fields) as [fields'' o] eqn:E.
    intros [= -> ->]. exists args. split; [reflexivity|].
    apply bindFields_done in E.
    eapply Forall2_impl; [exact E|]. intros f f'. apply bindField_Next_iff.
  - intros (args & -> & H).
    rewrite (bindFields_all ParseFloat args fields fields'); [reflexivity|].
    eapply Forall2_impl; [exact H|]. intros f f'. apply bindField_Next_iff.
Qed.

(** [Name string; Verbose bool; Level int8; Port uint16] bound from
    [--Name=a=b --Verbose=TRUE --Level=-12 --Port 8080]. *)
Lemma Parse_nil_iff_all_bound_witness :
  exists args : gmap string string,
    mapArgSlice (drop 1 serverArgs) = inl args /\
    Forall2 (boundFrom rejectFloats args)
      (serverFields "" false 0 0) (serverFields "a=b" true (-12) 8080).
Proof.
  apply (proj1 (Parse_nil_iff_all_bound rejectFloats (serverFields "" false 0 0)
                  (serverFields "a=b" true (-12) 8080) None "prog"
                  ["--Name=a=b"; "--Verbose=TRUE"; "--Level=-12"; "--Port"; "8080"]
                  ltac:(repeat constructor))).
  vm_compute; reflexivity.
Defined.

(** ** Plain tokens *)

(** X21: a token without a leading dash that no long flag takes as its
    value becomes a key. After arguments that tokenize to [m], such a token
    is entered with the empty value, the empty token too; a field of that
    name is bound as if the flag had been given without a value. *)
Theorem mapArgSlice_plain_token
    (pre : list string) (m : gmap string string) (tok : string) :
  mapArgSlice pre = inl m ->
  HasPrefix tok "-" = false ->
  mapArgSlice (pre ++ [tok]) = inl (<[tok := ""]> m).
Proof.
  intros H Ht.
  pose proof (mapArgSlice_continue pre [tok] m H) as Hc.
  assert (E : mapArgSliceFrom m [tok] = inl (<[tok := ""]> m)).
  { unfold mapArgSliceFrom. cbn [length]. rewrite mapArgLoop_S.
    cbn [lookup list_lookup].
    assert (HasPrefix tok "--" = false) as ->.
    { destruct (HasPrefix tok "--") eqn:L; [|reflexivity].
      apply HasPrefix_dash2_dash1 in L. congruence. }
    rewrite Ht. reflexivity. }
  rewrite E in Hc. exact Hc.
Qed.

Lemma mapArgSlice_plain_token_witness :
  mapArgSlice (["--Host"; "db"] ++ ["Verbose"])
  = inl (<["Verbose" := ""]> (<["Host" := "db"]> ∅)).
Proof.
  apply (mapArgSlice_plain_token ["--Host"; "db"] (<["Host" := "db"]> ∅) "Verbose").
  - vm_compute; reflexivity.
  - reflexivity.
Defined.

(** ** Fields that are not exported *)

Lemma bindField_unexported ParseFloat args f g :
  IsExported f = false ->
  (Kind f = reflect.Bool -> args !! Name f <> None) ->
  bindField ParseFloat args (asExported f) = Next g ->
  exists setter : string,
    bindField ParseFloat args f = Stop (Panicked (UnexportedField setter)).
Proof.
  intros X B H.
  unfold bindField, SetString, SetBool, SetInt, SetUint, SetFloat, set, fail in *.
  cbn [Name Kind asExported] in H. rewrite X.
  destruct (Kind f) eqn:K;
    repeat match type of H with
           | match ?x with _ => _ end = _ => destruct x eqn:?
           | (if ?x then _ else _) = _ => destruct x eqn:?
           end;
    try discriminate; eauto.
  exfalso. apply B; reflexivity.
Qed.

(** X22: [Parse] panics where it would assign a field that is not
    exported. When the loop reaches such a field and the pass for the same
    field, exported, would assign it (for a bool: its flag is given), the
    call panics in the setter of [reflect]; the field and the fields after
    it are as they were. *)
Theorem Parse_unexported_field_panics
    (ParseFloat : string -> float64 + NumError) (config : option Config)
    (prog : string) (rest : list string) (args : gmap string string)
    (pre pre' : list Field) (f g : Field) (post : list Field) :
  mapArgSlice rest = inl args ->
  bindFields ParseFloat args pre = (pre', Returned None) ->
  IsExported f = false ->
  (Kind f = reflect.Bool -> args !! Name f <> None) ->
  bindField ParseFloat args (asExported f) = Next g ->
  exists setter : string,
    Parse ParseFloat (structPointer (pre ++ f :: post)) config (prog :: rest)
    = (structPointer (pre' ++ f :: post), Panicked (UnexportedField setter)).
Proof.
  intros Hm Hpre X B H.
  destruct (bindField_unexported _ _ _ _ X B H) as [setter Hs].
  exists setter. apply Parse_stops_at with (args := args); assumption.
Qed.

(** [--name=x] against the lower-case field [name string]. *)
Lemma Parse_unexported_field_panics_witness :
  exists setter : string,
    Parse rejectFloats
      (structPointer ([] ++ [unexportedField "name" reflect.String (StringValue "")]))
      None ["prog"; "--name=x"]
    = (structPointer ([] ++ [unexportedField "name" reflect.String (StringValue "")]),
       Panicked (UnexportedField setter)).
Proof.
  apply (Parse_unexported_field_panics rejectFloats None "prog" ["--name=x"]
           (<["name" := "x"]> ∅) [] []
           (unexportedField "name" reflect.String (StringValue ""))
           (exportedField "name" reflect.String (StringValue "x")) []).
  - vm_compute; reflexivity.
  - reflexivity.
  - reflexivity.
  - discriminate.
  - vm_compute; reflexivity.
Defined.
